(** * ziso: a shallow embedding of [src/ziso.cpp]

    The development follows the source file function by function:
    the offset quantizer ([pos_to_index], [index_to_pos]), the block
    compressor ([compress_block]), the option parser ([get_options]) and the
    body of [main] (block count, shift selection, block loop, sentinel,
    index rewrite, the [exit:] epilogue).

    Conventions.  Fixed-width C++ integers are values of [Z] with their
    wrap-around written out ([u8], [u32], [u64], [to_int]); [int] and
    [unsigned int] are 32 bits wide and [long]/[size_t] 64 bits wide, as on
    every platform the tool is built for.  [char] buffers are lists of
    [Byte.byte].  The file system is a finite map from paths to contents. *)

From Stdlib Require Import ZArith Lia Bool Ascii String List.
From Stdlib Require Import Strings.Byte.
From Stdlib Require Import Floats.SpecFloat.
From stdpp Require Import gmap strings list.

Local Open Scope Z_scope.

(** ** Machine integers *)

Definition wrap (w z : Z) : Z := z mod 2 ^ w.

Definition u8 : Z -> Z := wrap 8.
Definition u32 : Z -> Z := wrap 32.
Definition u64 : Z -> Z := wrap 64.

(** Conversion of an unsigned value to [int] (two's complement). *)
Definition to_int (z : Z) : Z :=
  let r := u32 z in if r <? 2 ^ 31 then r else r - 2 ^ 32.

(** ** Offset quantizer *)

(** [pos_to_index(filePosition, shift, uncompressed)].  The first component
    is the returned index entry, the second the value written back through
    the reference parameter [filePosition].  [indexPosition] is a
    [uint32_t], so [indexPosition << shift] is computed in 32 bits before it
    is widened to the 64-bit [newFilePosition]. *)
Definition pos_to_index (filePosition shift : Z) (uncompressed : bool) : Z * Z :=
  let indexPosition := u32 (Z.shiftr filePosition shift) in
  let newFilePosition := u32 (Z.shiftl indexPosition shift) in
  let '(indexPosition, newFilePosition) :=
    if newFilePosition <? filePosition
    then (u32 (indexPosition + 1), u32 (Z.shiftl (u32 (indexPosition + 1)) shift))
    else (indexPosition, newFilePosition) in
  let indexPosition := Z.lor indexPosition (Z.shiftl (Z.b2z uncompressed) 31) in
  (indexPosition, newFilePosition).

(** [index_to_pos(indexData, shift, uncompressed)]: the returned position
    and the flag written through the reference parameter.  The operand of
    the shift is again a 32-bit value. *)
Definition index_to_pos (indexData shift : Z) : Z * bool :=
  (u32 (Z.shiftl (Z.land indexData 0x7FFFFFFF) shift),
   negb (Z.land indexData 0x80000000 =? 0)).

(** What the specification calls the quantum: the least multiple of
    [2 ^ shift] that is not below [offset]. *)
Definition round_up (offset shift : Z) : Z :=
  (offset + 2 ^ shift - 1) / 2 ^ shift * 2 ^ shift.

(** ** Settings ([struct opt] of ziso.h) *)

Record opt := {
  inputFile : string;
  outputFile : string;
  compress : bool;
  lz4hc : bool;
  compressionLevel : Z;
  blockSize : Z;
  overwrite : bool;
  keepOutput : bool
}.

Definition set_inputFile (o : opt) (s : string) : opt :=
  {| inputFile := s; outputFile := outputFile o; compress := compress o;
     lz4hc := lz4hc o; compressionLevel := compressionLevel o;
     blockSize := blockSize o; overwrite := overwrite o;
     keepOutput := keepOutput o |}.

Definition set_outputFile (o : opt) (s : string) : opt :=
  {| inputFile := inputFile o; outputFile := s; compress := compress o;
     lz4hc := lz4hc o; compressionLevel := compressionLevel o;
     blockSize := blockSize o; overwrite := overwrite o;
     keepOutput := keepOutput o |}.

Definition set_compress (o : opt) (b : bool) : opt :=
  {| inputFile := inputFile o; outputFile := outputFile o; compress := b;
     lz4hc := lz4hc o; compressionLevel := compressionLevel o;
     blockSize := blockSize o; overwrite := overwrite o;
     keepOutput := keepOutput o |}.

Definition set_lz4hc (o : opt) (b : bool) : opt :=
  {| inputFile := inputFile o; outputFile := outputFile o;
     compress := compress o; lz4hc := b;
     compressionLevel := compressionLevel o; blockSize := blockSize o;
     overwrite := overwrite o; keepOutput := keepOutput o |}.

Definition set_compressionLevel (o : opt) (n : Z) : opt :=
  {| inputFile := inputFile o; outputFile := outputFile o;
     compress := compress o; lz4hc := lz4hc o; compressionLevel := n;
     blockSize := blockSize o; overwrite := overwrite o;
     keepOutput := keepOutput o |}.

Definition set_blockSize (o : opt) (n : Z) : opt :=
  {| inputFile := inputFile o; outputFile := outputFile o;
     compress := compress o; lz4hc := lz4hc o;
     compressionLevel := compressionLevel o; blockSize := n;
     overwrite := overwrite o; keepOutput := keepOutput o |}.

Definition set_overwrite (o : opt) (b : bool) : opt :=
  {| inputFile := inputFile o; outputFile := outputFile o;
     compress := compress o; lz4hc := lz4hc o;
     compressionLevel := compressionLevel o; blockSize := blockSize o;
     overwrite := b; keepOutput := keepOutput o |}.

Definition set_keepOutput (o : opt) (b : bool) : opt :=
  {| inputFile := inputFile o; outputFile := outputFile o;
     compress := compress o; lz4hc := lz4hc o;
     compressionLevel := compressionLevel o; blockSize := blockSize o;
     overwrite := overwrite o; keepOutput := b |}.

(** ** The LZ4 library (external)

    Each entry point receives the source buffer, [srcSize], [dstCapacity]
    and the level or acceleration, and yields the [int] it returns together
    with the bytes it stored at the start of the destination buffer.
    Nothing is assumed about either. *)
Record lz4 := {
  LZ4_compress_fast : list byte -> Z -> Z -> Z -> Z * list byte;
  LZ4_compress_HC : list byte -> Z -> Z -> Z -> Z * list byte
}.

(** ** What ziso.h declares

    ziso.h is not part of the examined sources.  The values it fixes and
    that [main] reads without assigning them are taken as parameters: the
    default member values of [opt], the value of [fileHeader.indexShift]
    before the shift selection, the object representation of a [zheader]
    with the three fields [main] sets ([uncompressedSize], [blockSize],
    [indexShift]), and the acceleration table [lz4_compression_level]. *)
Record ziso_h := {
  opt_init : opt;
  indexShift_init : Z;
  zheader_image : Z -> Z -> Z -> list byte;
  lz4_compression_level : Z -> Z
}.

(** ** Buffers *)

(** [store w buf]: the buffer [buf] after [w] has been copied to its start
    (the length of a buffer never changes). *)
Definition store (w buf : list byte) : list byte :=
  take (length buf) w ++ drop (length w) buf.

(** ** Block compressor *)

(** [compress_block(src, srcSize, dst, dstSize, uncompressed, settings)].
    Result: the returned size, the destination buffer and the [uncompressed]
    flag as the call leaves them. *)
Definition compress_block (lz : lz4) (h : ziso_h)
    (src : list byte) (srcSize : Z) (dst : list byte) (dstSize : Z)
    (uncompressed : bool) (settings : opt) : Z * list byte * bool :=
  let '(r, written) :=
    if lz4hc settings
    then LZ4_compress_HC lz src srcSize dstSize (compressionLevel settings)
    else LZ4_compress_fast lz src srcSize dstSize
           (lz4_compression_level h (compressionLevel settings - 1)) in
  let dst := store written dst in
  let outSize := u32 r in
  if (outSize =? 0) || (srcSize <? outSize) then
    if dstSize <? srcSize then (0, dst, uncompressed)
    else (srcSize, store (take (Z.to_nat srcSize) src) dst, true)
  else (outSize, dst, false).

(** ** Option parsing *)

(** [std::stoi] of the C++ standard library on a decimal argument: leading
    white space is skipped, an optional sign is read, then at least one
    digit; what follows the digits is ignored.  [None] stands for the
    exception it throws (no digit, or a value outside [int]). *)
Definition isspace (c : ascii) : bool :=
  let n := Z.of_nat (nat_of_ascii c) in (n =? 32) || ((9 <=? n) && (n <=? 13)).

Definition digit_of (c : ascii) : option Z :=
  let n := Z.of_nat (nat_of_ascii c) in
  if (48 <=? n) && (n <=? 57) then Some (n - 48) else None.

Fixpoint skip_spaces (s : string) : string :=
  match s with
  | String c t => if isspace c then skip_spaces t else s
  | EmptyString => s
  end.

Fixpoint read_digits (s : string) (acc : Z) : Z :=
  match s with
  | String c t =>
      match digit_of c with
      | Some d => read_digits t (10 * acc + d)
      | None => acc
      end
  | EmptyString => acc
  end.

Definition stoi (s : string) : option Z :=
  let s := skip_spaces s in
  let '(negative, s) :=
    match s with
    | String "-" t => (true, t)
    | String "+" t => (false, t)
    | _ => (false, s)
    end in
  match s with
  | String c _ =>
      match digit_of c with
      | Some _ =>
          let n := read_digits s 0 in
          let v := if negative then - n else n in
          if (- 2 ^ 31 <=? v) && (v <? 2 ^ 31) then Some v else None
      | None => None
      end
  | EmptyString => None
  end.

(** [get_options(argc, argv, options)].  The argument vector is represented
    by what successive calls of [getopt_long] yield for it: the option
    character and the text of [optarg].  Result: the returned code and
    [options] as the call leaves it. *)
Fixpoint get_options (args : list (ascii * string)) (options : opt) : Z * opt :=
  match args with
  | [] => (0, options)
  | (ch, optarg) :: rest =>
      match ch with
      | "i"%char => get_options rest (set_inputFile options optarg)
      | "o"%char => get_options rest (set_outputFile options optarg)
      | "c"%char =>
          match stoi optarg with
          | Some v =>
              let temp_argument := u64 v in
              if (temp_argument <? 1) || (12 <? temp_argument)
              then (1, options)
              else get_options rest
                     (set_compressionLevel options (u8 temp_argument))
          | None => (1, options)
          end
      | "l"%char => get_options rest (set_lz4hc options true)
      | "b"%char =>
          match stoi optarg with
          | Some v =>
              let temp_argument := u64 v in
              if (temp_argument =? 0) || (temp_argument <? 512)
              then (1, options)
              else get_options rest (set_blockSize options (u8 temp_argument))
          | None => (1, options)
          end
      | "f"%char => get_options rest (set_overwrite options true)
      | "k"%char => get_options rest (set_keepOutput options true)
      | "h"%char | "?"%char => (0, options)
      | _ => get_options rest options
      end
  end.

(** ** Block count and shift selection (start of the compression branch) *)

(** Single-precision values ([float] is IEEE binary32: 24 significant bits,
    exponents below 128), with the operations of the standard library's
    executable IEEE 754 specification. *)
Definition float_of_Z (z : Z) : spec_float := binary_normalize 24 128 z 0 false.

Definition float_div : spec_float -> spec_float -> spec_float := SFdiv 24 128.

(** [ceil] of a floating-point value, as an integer; [None] for an infinity
    or a NaN. *)
Definition ceil (x : spec_float) : option Z :=
  match x with
  | S754_zero _ => Some 0
  | S754_finite s m e =>
      let v := if s then Z.neg m else Z.pos m in
      Some (if 0 <=? e then v * 2 ^ e else - ((- v) / 2 ^ (- e)))
  | S754_infinity _ | S754_nan => None
  end.

(** [blocksNumber = ceil((float)inputSize / settings.blockSize) + 1].  The
    quotient is a [float]; [ceil] is the C function on [double], in which
    the sum is exact.  (Were the [float] overload of <cmath> selected, the
    sum would be rounded once more from [2 ^ 24] blocks on; nothing below
    reaches that count.)  The conversion to [uint32_t] is defined only when
    the value fits, and [None] stands for the undefined conversion (also of
    an infinity or a NaN, which a zero block size produces). *)
Definition blocksNumber (inputSize blockSize : Z) : option Z :=
  match ceil (float_div (float_of_Z inputSize) (float_of_Z blockSize)) with
  | Some c => if (0 <=? c + 1) && (c + 1 <? 2 ^ 32) then Some (c + 1) else None
  | None => None
  end.

(** [headerSize = 0x18 + (blocksNumber * sizeof(uint32_t))], stored in a
    [uint32_t]. *)
Definition headerSize (blocksNumber : Z) : Z := u32 (0x18 + blocksNumber * 4).

(** The chain of [if]s that sets [fileHeader.indexShift].  The first [if]
    is not joined to the following ones by an [else].  [0xFFFFFFFF] is an
    [unsigned int] and [0x7FFFFFFF] an [int], so the last two differences
    are computed in 32 bits; the first two constants are 64 bits wide. *)
Definition select_shift (indexShift inputSize headerSize : Z) : Z :=
  let indexShift :=
    if 0x3FFFFFFFF - headerSize <? inputSize then 4 else indexShift in
  if 0x1FFFFFFFF - headerSize <? inputSize then 3
  else if u32 (0xFFFFFFFF - headerSize) <? inputSize then 2
  else if u32 (0x7FFFFFFF - headerSize) <? inputSize then 1
  else indexShift.

(** ** Files and streams *)

(** The file system: the content of every existing file, and the paths at
    which nothing can be created, overwritten or removed.  One set serves
    both purposes: the model has no file that can be written but not
    removed, so what [main] prints when [remove] fails on a file it wrote
    itself has no counterpart here. *)
Record world := {
  files : gmap string (list byte);
  locked : gset string
}.

Definition set_files (w : world) (fs : gmap string (list byte)) : world :=
  {| files := fs; locked := locked w |}.

(** [remove(path)]. *)
Definition remove (w : world) (path : string) : world :=
  if decide (path ∈ locked w) then w else set_files w (delete path (files w)).

(** The input stream: position and fail bit; the content is that of the
    file in the file system. *)
Record ifstream := {
  i_path : string;
  i_pos : Z;
  i_fail : bool
}.

Definition content (w : world) (path : string) : list byte :=
  default [] (files w !! path).

Definition ifstream_open (w : world) (path : string) : ifstream :=
  {| i_path := path; i_pos := 0;
     i_fail := match files w !! path with Some _ => false | None => true end |}.

(** [read(buf, n)]: nothing happens on a failed stream; a short read keeps
    what is there and sets the fail bit. *)
Definition read (w : world) (f : ifstream) (n : Z) : ifstream * list byte :=
  if i_fail f then (f, [])
  else
    let data := content w (i_path f) in
    let rest := drop (Z.to_nat (i_pos f)) data in
    if n <=? Z.of_nat (length rest)
    then ({| i_path := i_path f; i_pos := i_pos f + n; i_fail := false |},
          take (Z.to_nat n) rest)
    else ({| i_path := i_path f; i_pos := Z.of_nat (length data);
             i_fail := true |}, rest).

(** [tellg()] is -1 on a failed stream. *)
Definition tellg (f : ifstream) : Z := if i_fail f then -1 else i_pos f.

(** [seekg(0, end)] and [seekg(0, beg)] do nothing on a failed stream. *)
Definition seekg_end (w : world) (f : ifstream) : ifstream :=
  if i_fail f then f
  else {| i_path := i_path f;
          i_pos := Z.of_nat (length (content w (i_path f)));
          i_fail := false |}.

Definition seekg_beg (f : ifstream) : ifstream :=
  if i_fail f then f
  else {| i_path := i_path f; i_pos := 0; i_fail := false |}.

(** The output stream: what the file holds and the put position. *)
Record ofstream := {
  o_data : list byte;
  o_pos : Z
}.

Definition tellp (f : ofstream) : Z := o_pos f.

Definition seekp (f : ofstream) (pos : Z) : ofstream :=
  {| o_data := o_data f; o_pos := pos |}.

(** [write(buf, n)] at the put position; a gap left by a seek past the end
    reads as zeros. *)
Definition write (f : ofstream) (bytes : list byte) : ofstream :=
  let p := Z.to_nat (o_pos f) in
  let data := o_data f ++ replicate (p - length (o_data f)) x00 in
  {| o_data := take p data ++ bytes ++ drop (p + length bytes) data;
     o_pos := o_pos f + Z.of_nat (length bytes) |}.

(** A [uint32_t] in memory (least significant byte first) and the index
    table as the bytes [blocks.data()] points to. *)
Definition byte_of_Z (z : Z) : byte :=
  default x00 (Byte.of_N (Z.to_N (z mod 256))).

Definition uint32_image (z : Z) : list byte :=
  [byte_of_Z z; byte_of_Z (Z.shiftr z 8); byte_of_Z (Z.shiftr z 16);
   byte_of_Z (Z.shiftr z 24)].

Definition index_image (blocks : list Z) : list byte :=
  concat (map uint32_image blocks).

(** ** The compression branch of [main] *)

Record encoder := {
  inFile : ifstream;
  outFile : ofstream;
  blocks : list Z;
  readBuffer : list byte;
  writeBuffer : list byte
}.

(** The zero bytes written after an index entry has been computed: none
    unless the aligned position is beyond the start position, and then one
    for every [i] with [blockStartPosition <= i <= blockRealStartPosition]. *)
Definition padding (blockStartPosition blockRealStartPosition : Z) : list byte :=
  if blockStartPosition <? blockRealStartPosition
  then replicate (Z.to_nat (blockRealStartPosition - blockStartPosition + 1)) x00
  else [].

(** One iteration of the block loop.  The first component is [return_code]:
    1 when the iteration leaves through [goto exit].  The call of
    [progress] at the end of the iteration only prints and is left out. *)
Definition encode_block (lz : lz4) (h : ziso_h) (w : world) (settings : opt)
    (indexShift inputSize : Z) (currentBlock : nat) (st : encoder)
    : Z * encoder :=
  let blockStartPosition := tellp (outFile st) in
  let toRead := blockSize settings in
  let leftInFile := u64 (inputSize - tellg (inFile st)) in
  let toRead := if leftInFile <? toRead then leftInFile else toRead in
  let '(inFile', got) := read w (inFile st) toRead in
  let readBuffer' := store got (readBuffer st) in
  let '(size, writeBuffer', uncompressed) :=
    compress_block lz h readBuffer' (u32 toRead) (writeBuffer st)
      (u32 (Z.of_nat (length (writeBuffer st)))) false settings in
  let compressedBytes := to_int size in
  if 0 <? compressedBytes then
    let out := write (outFile st) (take (Z.to_nat compressedBytes) writeBuffer') in
    let '(entry, blockRealStartPosition) :=
      pos_to_index blockStartPosition indexShift uncompressed in
    let out := write out (padding blockStartPosition blockRealStartPosition) in
    (0, {| inFile := inFile'; outFile := out;
           blocks := <[currentBlock := entry]> (blocks st);
           readBuffer := readBuffer'; writeBuffer := writeBuffer' |})
  else
    (1, {| inFile := inFile'; outFile := outFile st; blocks := blocks st;
           readBuffer := readBuffer'; writeBuffer := writeBuffer' |}).

(** [n] further iterations of the loop, starting at [currentBlock]. *)
Fixpoint block_loop (lz : lz4) (h : ziso_h) (w : world) (settings : opt)
    (indexShift inputSize : Z) (n currentBlock : nat) (st : encoder)
    : Z * encoder :=
  match n with
  | O => (0, st)
  | S n' =>
      let '(return_code, st') :=
        encode_block lz h w settings indexShift inputSize currentBlock st in
      if return_code =? 0
      then block_loop lz h w settings indexShift inputSize n' (S currentBlock) st'
      else (return_code, st')
  end.

(** The end-of-file entry and the rewrite of the index at offset 0x18. *)
Definition finish_index (indexShift blocksNumber : Z) (st : encoder) : encoder :=
  let blockStartPosition := tellp (outFile st) in
  let '(entry, blockRealStartPosition) :=
    pos_to_index blockStartPosition indexShift false in
  let blocks' := <[Z.to_nat (blocksNumber - 1) := entry]> (blocks st) in
  let out := write (outFile st) (padding blockStartPosition blockRealStartPosition) in
  let out := write (seekp out 0x18) (index_image blocks') in
  {| inFile := inFile st; outFile := out; blocks := blocks';
     readBuffer := readBuffer st; writeBuffer := writeBuffer st |}.

(** The start of the branch, from [inFile.seekg(0, end)] to the two buffer
    [resize]s, on a freshly opened output stream: the input size, the block
    count, the shift and the state the loop starts in.  [None]: the
    conversion that yields [blocksNumber] is undefined. *)
Definition encode_init (h : ziso_h) (w : world) (settings : opt)
    (inFile0 : ifstream) : option (Z * Z * Z * encoder) :=
  let inFile1 := seekg_end w inFile0 in
  let inputSize := u64 (tellg inFile1) in
  let inFile2 := seekg_beg inFile1 in
  match blocksNumber inputSize (blockSize settings) with
  | None => None
  | Some blocksNumber =>
      let headerSize := headerSize blocksNumber in
      let indexShift := select_shift (indexShift_init h) inputSize headerSize in
      let out := write {| o_data := []; o_pos := 0 |}
                   (zheader_image h inputSize (blockSize settings) indexShift) in
      let blocks0 := replicate (Z.to_nat blocksNumber) 0 in
      let out := write out (index_image blocks0) in
      Some (inputSize, blocksNumber, indexShift,
            {| inFile := inFile2; outFile := out; blocks := blocks0;
               readBuffer := replicate (Z.to_nat (blockSize settings)) x00;
               writeBuffer := replicate (Z.to_nat (blockSize settings)) x00 |})
  end.

(** The whole branch: start, block loop and, unless the loop left through
    [goto exit], the end-of-file entry and the index rewrite. *)
Definition encode (lz : lz4) (h : ziso_h) (w : world) (settings : opt)
    (inFile0 : ifstream) : option (Z * encoder) :=
  match encode_init h w settings inFile0 with
  | None => None
  | Some (inputSize, blocksNumber, indexShift, st) =>
      let '(return_code, st') :=
        block_loop lz h w settings indexShift inputSize
          (Z.to_nat (blocksNumber - 1)) O st in
      if return_code =? 0
      then Some (0, finish_index indexShift blocksNumber st')
      else Some (return_code, st')
  end.

(** ** [main] *)

(** How a run ends: with a return code and a file system, or in undefined
    behaviour. *)
Inductive outcome :=
  | Exit (return_code : Z) (w : world)
  | Undefined.

(** [inputFile.substr(0, inputFile.find_last_of("."))]. *)
Fixpoint find_last_of (c : ascii) (s : string) : option nat :=
  match s with
  | EmptyString => None
  | String a t =>
      match find_last_of c t with
      | Some i => Some (S i)
      | None => if Ascii.eqb a c then Some O else None
      end
  end.

Definition rawName (inputFile : string) : string :=
  match find_last_of "." inputFile with
  | Some i => substring 0 i inputFile
  | None => inputFile
  end.

(** The four bytes compared with the format tag; [file_format] starts as
    zeros and a short read leaves the rest untouched. *)
Definition is_ziso (got : list byte) : bool :=
  match got ++ replicate 4 x00 with
  | a :: b :: c :: d :: _ =>
      Byte.eqb a "Z"%byte && Byte.eqb b "I"%byte
      && Byte.eqb c "S"%byte && Byte.eqb d "O"%byte
  | _ => false
  end.

(** The code after the [exit:] label (both streams are closed before it
    decides whether to remove the output file). *)
Definition exit_ (return_code : Z) (settings : opt) (w : world) : outcome :=
  if return_code =? 0 then Exit return_code w
  else if keepOutput settings then Exit return_code w
  else match files w !! outputFile settings with
       | Some _ => Exit return_code (remove w (outputFile settings))
       | None => Exit return_code w
       end.

(** The settings once the format tag has been examined and the output name
    has been fixed. *)
Definition detect (settings : opt) (file_format : list byte) : opt :=
  let settings :=
    if is_ziso file_format then set_compress settings false else settings in
  if String.eqb (outputFile settings) ""
  then set_outputFile settings
         (rawName (inputFile settings)
          ++ (if compress settings then ".zso" else ".iso"))%string
  else settings.

Definition main (lz : lz4) (h : ziso_h) (args : list (ascii * string))
    (w : world) : outcome :=
  let '(return_code, settings) := get_options args (opt_init h) in
  if negb (return_code =? 0) then exit_ return_code settings w
  else if String.eqb (inputFile settings) "" then exit_ 1 settings w
  else
    let inFile0 := ifstream_open w (inputFile settings) in
    if i_fail inFile0 then exit_ 1 settings w
    else
      let '(inFile1, file_format) := read w inFile0 4 in
      let settings := detect settings file_format in
      if negb (overwrite settings)
         && bool_decide (is_Some (files w !! outputFile settings))
      then exit_ 1 (set_keepOutput settings true) w
      else if decide (outputFile settings ∈ locked w) then exit_ 1 settings w
      else
        let w := set_files w (<[outputFile settings := []]> (files w)) in
        if compress settings then
          match encode lz h w settings inFile1 with
          | Some (return_code, st) =>
              exit_ return_code settings
                (set_files w
                   (<[outputFile settings := o_data (outFile st)]> (files w)))
          | None => Undefined
          end
        else exit_ 0 settings w.

(** ** Progress reporting *)

(** The two globals [lastProgress] and [lastRatio]. *)
Record progress_state := {
  lastProgress : Z;
  lastRatio : Z
}.

(** Their initial values ([lastProgress] starts at 100 to force a report at
    0%). *)
Definition progress_start : progress_state :=
  {| lastProgress := 100; lastRatio := 0 |}.

(** [progress_compress(currentInput, totalInput, currentOutput)]: the pair
    of numbers it prints, if it prints, and the globals it leaves.  Both
    percentages are 64-bit quotients stored in a [uint8_t]; [None] stands
    for a division by zero. *)
Definition progress_compress (currentInput totalInput currentOutput : Z)
    (g : progress_state) : option (option (Z * Z) * progress_state) :=
  if (totalInput =? 0) || (currentInput =? 0) then None
  else
    let progress := u8 (u64 (currentInput * 100) / totalInput) in
    let ratio := u8 (u64 (currentOutput * 100) / currentInput) in
    if negb (lastProgress g =? progress) || negb (lastRatio g =? ratio)
    then Some (Some (progress, ratio),
               {| lastProgress := progress; lastRatio := ratio |})
    else Some (None, g).

(** [progress_decompress(currentInput, totalInput)]: the number it prints,
    if it prints, and the globals it leaves. *)
Definition progress_decompress (currentInput totalInput : Z)
    (g : progress_state) : option (option Z * progress_state) :=
  if totalInput =? 0 then None
  else
    let progress := u8 (u64 (currentInput * 100) / totalInput) in
    if negb (lastProgress g =? progress)
    then Some (Some progress,
               {| lastProgress := progress; lastRatio := lastRatio g |})
    else Some (None, g).

(** ** Reference notions used to state the properties *)

(** The size the codec call inside [compress_block] yields, as the
    [uint32_t] it is stored in. *)
Definition codec_size (lz : lz4) (h : ziso_h) (src : list byte)
    (srcSize dstSize : Z) (settings : opt) : Z :=
  u32 (fst (if lz4hc settings
            then LZ4_compress_HC lz src srcSize dstSize (compressionLevel settings)
            else LZ4_compress_fast lz src srcSize dstSize
                   (lz4_compression_level h (compressionLevel settings - 1)))).

(** The call of [compress_block] that an iteration of the block loop makes
    in the state [st] (the arguments are those of [encode_block]). *)
Definition block_call (lz : lz4) (h : ziso_h) (w : world) (settings : opt)
    (inputSize : Z) (st : encoder) : Z * list byte * bool :=
  let toRead := blockSize settings in
  let leftInFile := u64 (inputSize - tellg (inFile st)) in
  let toRead := if leftInFile <? toRead then leftInFile else toRead in
  compress_block lz h (store (snd (read w (inFile st) toRead)) (readBuffer st))
    (u32 toRead) (writeBuffer st)
    (u32 (Z.of_nat (length (writeBuffer st)))) false settings.

(** The block count of the specification:
    [ceil(uncompressedSize / blockSize) + 1] over the integers. *)
Definition exact_blocksNumber (inputSize blockSize : Z) : Z :=
  (inputSize + blockSize - 1) / blockSize + 1.

(** Offsets the 32-bit shifts of the quantizer can represent: the aligned
    offset is below [2 ^ 32] and its quotient fits the 31 index bits. *)
Definition representable (offset shift : Z) : Prop :=
  round_up offset shift < 2 ^ 32 /\ round_up offset shift < 2 ^ (31 + shift).

(** A floating-point value that is not negative (a NaN has no sign). *)
Definition not_negative (x : spec_float) : Prop :=
  match x with
  | S754_zero s | S754_infinity s | S754_finite s _ _ => s = false
  | S754_nan => True
  end.

(** The loop writes sequentially: the put position is the end of what has
    been written. *)
Definition at_end (f : ofstream) : Prop :=
  o_pos f = Z.of_nat (length (o_data f)).

(** ** Instances for the examples *)

(** The defaults the help text of [print_help] documents (block size 2048,
    compression level 12, output kept only on request, no overwrite); an
    empty name stands for an option that was not given. *)
Definition reference_opt : opt :=
  {| inputFile := ""; outputFile := ""; compress := true; lz4hc := false;
     compressionLevel := 12; blockSize := 2048; overwrite := false;
     keepOutput := false |}.

Definition uint64_image (z : Z) : list byte :=
  uint32_image z ++ uint32_image (Z.shiftr z 32).

(** Modelled from the spec: ziso.h, with the layout of [zheader], is absent.
    The specification fixes a 0x18-byte header that starts with the 4-byte
    tag and holds [uncompressedSize], [blockSize], [indexShift] and reserved
    space; the shift starts at 0.  The acceleration table is not described:
    the codecs of the examples ignore their last argument. *)
Definition reference_h : ziso_h :=
  {| opt_init := reference_opt;
     indexShift_init := 0;
     zheader_image := fun uncompressedSize blockSize indexShift =>
       ["Z"; "I"; "S"; "O"]%byte ++ uint64_image uncompressedSize
       ++ uint32_image blockSize ++ [byte_of_Z indexShift]
       ++ replicate 7 x00;
     lz4_compression_level := fun _ => 1 |}.

(** A codec that reports the size [r] and stores [written], whatever it is
    given. *)
Definition constant_codec (r : Z) (written : list byte) : lz4 :=
  {| LZ4_compress_fast := fun _ _ _ _ => (r, written);
     LZ4_compress_HC := fun _ _ _ _ => (r, written) |}.

(** A state of the block loop at an odd write position, as it arises under
    shift 1 once a payload of odd length has been written: 43 bytes of
    output so far, 4-byte blocks, eight bytes of input left, and a codec
    that reports 3 bytes for every block. *)
Definition example_settings : opt :=
  set_blockSize (set_inputFile reference_opt "a.iso") 4.

Definition example_world : world :=
  {| files := {[ "a.iso"%string := replicate 12 "A"%byte ]}; locked := ∅ |}.

Definition example_codec : lz4 := constant_codec 3 ["001"; "002"; "003"]%byte.

Definition example_state : encoder :=
  {| inFile := {| i_path := "a.iso"; i_pos := 4; i_fail := false |};
     outFile := {| o_data := replicate 43 "007"%byte; o_pos := 43 |};
     blocks := [20; 0; 0; 0];
     readBuffer := replicate 4 "A"%byte;
     writeBuffer := replicate 4 x00 |}.

(** The same state with a write buffer of two bytes, too small for a block,
    and with the input used up. *)
Definition short_buffer_state : encoder :=
  {| inFile := inFile example_state; outFile := outFile example_state;
     blocks := blocks example_state; readBuffer := readBuffer example_state;
     writeBuffer := replicate 2 x00 |}.

Definition exhausted_state : encoder :=
  {| inFile := {| i_path := "a.iso"; i_pos := 12; i_fail := false |};
     outFile := outFile example_state; blocks := blocks example_state;
     readBuffer := readBuffer example_state;
     writeBuffer := writeBuffer example_state |}.

(** Two file systems: one in which only a destination file exists, and one
    that holds a container (it starts with the tag) next to an image that
    bears the name the output would get. *)
Definition saved_world : world :=
  {| files := {[ "game.zso"%string := ["s"; "a"; "v"; "e"; "d"]%byte ]};
     locked := ∅ |}.

Definition container_world : world :=
  {| files := {[ "game.zso"%string := ["Z"; "I"; "S"; "O"; x00; x00]%byte;
                 "game.iso"%string := ["k"; "e"; "e"; "p"]%byte ]};
     locked := ∅ |}.

(** * Properties *)

(** ** Machine integers *)

Lemma u32_small z : 0 <= z < 2 ^ 32 -> u32 z = z.
Proof. intros H. unfold u32, wrap. now apply Z.mod_small. Qed.

Lemma u32_range z : 0 <= u32 z < 2 ^ 32.
Proof. unfold u32, wrap. apply Z.mod_pos_bound. lia. Qed.

Lemma pow2_pos n : 0 <= n -> 0 < 2 ^ n.
Proof. intros H. apply Z.pow_pos_nonneg; lia. Qed.

(** ** Offset quantizer *)

Lemma round_up_spec offset shift :
  0 <= shift ->
  offset <= round_up offset shift < offset + 2 ^ shift
  /\ round_up offset shift mod 2 ^ shift = 0.
Proof.
  intros Hs. unfold round_up.
  pose proof (pow2_pos shift Hs) as HP.
  set (P := 2 ^ shift) in *.
  split.
  - pose proof (Z.div_mod (offset + P - 1) P ltac:(lia)) as Hd.
    pose proof (Z.mod_pos_bound (offset + P - 1) P HP) as Hm.
    rewrite (Z.mul_comm P) in Hd. lia.
  - apply Z.mod_mul. lia.
Qed.

Lemma round_up_least offset shift m :
  0 <= shift -> offset <= m -> m mod 2 ^ shift = 0 -> round_up offset shift <= m.
Proof.
  intros Hs Hle Hm. unfold round_up.
  pose proof (pow2_pos shift Hs) as HP.
  set (P := 2 ^ shift) in *.
  apply Z.div_exact in Hm; [|lia].
  assert (Hq : (offset + P - 1) / P < m / P + 1).
  { apply Z.div_lt_upper_bound; lia. }
  nia.
Qed.

Lemma round_up_aligned offset shift :
  0 <= shift -> offset mod 2 ^ shift = 0 -> round_up offset shift = offset.
Proof.
  intros Hs Hm.
  pose proof (round_up_spec offset shift Hs) as [[Hlo _] _].
  pose proof (round_up_least offset shift offset Hs ltac:(lia) Hm).
  lia.
Qed.

Lemma flag_bit_low (b : bool) :
  Z.land (Z.shiftl (Z.b2z b) 31) 0x7FFFFFFF = 0.
Proof. destruct b; reflexivity. Qed.

Lemma flag_bit_high (b : bool) :
  Z.land (Z.shiftl (Z.b2z b) 31) 0x80000000 = if b then 0x80000000 else 0.
Proof. destruct b; reflexivity. Qed.

Lemma land_low31 q : 0 <= q < 2 ^ 31 -> Z.land q 0x7FFFFFFF = q.
Proof.
  intros H. change 0x7FFFFFFF with (Z.ones 31).
  rewrite Z.land_ones by lia. now apply Z.mod_small.
Qed.

Lemma land_high31 q : 0 <= q < 2 ^ 31 -> Z.land q 0x80000000 = 0.
Proof.
  intros H. apply Z.bits_inj'. intros k Hk.
  rewrite Z.land_spec, Z.bits_0.
  change 0x80000000 with (2 ^ 31). rewrite Z.pow2_bits_eqb by lia.
  destruct (Z.eqb_spec 31 k) as [<-|Hne]; [|apply andb_false_r].
  rewrite <- (Z.mod_small q (2 ^ 31)) by lia.
  rewrite Z.mod_pow2_bits_high by lia. reflexivity.
Qed.

(** Decoding an entry whose quotient fits the 31 index bits. *)
Lemma index_to_pos_entry q shift (raw : bool) :
  0 <= q < 2 ^ 31 ->
  index_to_pos (Z.lor q (Z.shiftl (Z.b2z raw) 31)) shift
  = (u32 (Z.shiftl q shift), raw).
Proof.
  intros Hq. unfold index_to_pos.
  rewrite !Z.land_lor_distr_l, flag_bit_low, flag_bit_high.
  rewrite land_low31, land_high31 by assumption.
  rewrite Z.lor_0_r, Z.lor_0_l. now destruct raw.
Qed.

(** The flag does not influence the position [pos_to_index] writes back. *)
Lemma pos_to_index_position offset shift raw :
  snd (pos_to_index offset shift raw) = snd (pos_to_index offset shift false).
Proof. unfold pos_to_index. now destruct (_ <? _). Qed.

(** Whatever the offset, the position written back is a 32-bit value. *)
Lemma pos_to_index_below_4GiB offset shift raw :
  0 <= snd (pos_to_index offset shift raw) < 2 ^ 32.
Proof. unfold pos_to_index. destruct (_ <? _); cbn; apply u32_range. Qed.

Lemma index_to_pos_below_4GiB indexData shift :
  0 <= fst (index_to_pos indexData shift) < 2 ^ 32.
Proof. unfold index_to_pos. cbn. apply u32_range. Qed.

(** On representable offsets the quantizer rounds up to the next multiple of
    [2 ^ shift] and the index entry holds the quotient and the flag. *)
Lemma pos_to_index_representable offset shift raw :
  0 <= shift -> 0 <= offset -> representable offset shift ->
  pos_to_index offset shift raw
  = (Z.lor (round_up offset shift / 2 ^ shift) (Z.shiftl (Z.b2z raw) 31),
     round_up offset shift).
Proof.
  intros Hs Ho [HR _].
  pose proof (round_up_spec offset shift Hs) as [[Hlo Hhi] Hmod].
  pose proof (pow2_pos shift Hs) as HP.
  unfold pos_to_index.
  rewrite Z.shiftr_div_pow2 by assumption.
  set (P := 2 ^ shift) in *. set (R := round_up offset shift) in *.
  pose proof (Z.div_mod offset P ltac:(lia)) as Hd.
  pose proof (Z.mod_pos_bound offset P HP) as Hm.
  rewrite (Z.mul_comm P) in Hd.
  assert (Hq : 0 <= offset / P) by (apply Z.div_pos; lia).
  assert (HqP : offset / P <= offset / P * P) by nia.
  rewrite (u32_small (offset / P)) by lia.
  rewrite (Z.shiftl_mul_pow2 _ shift) by assumption. fold P.
  rewrite (u32_small (offset / P * P)) by lia.
  apply Z.div_exact in Hmod; [|lia]. rewrite (Z.mul_comm P) in Hmod.
  destruct (Z.ltb_spec (offset / P * P) offset) as [Hlt|Hge].
  - assert (HRq : R / P = offset / P + 1) by nia.
    assert (HR1 : (offset / P + 1) * P = R) by (rewrite <- HRq; lia).
    assert (Hq1 : offset / P + 1 <= (offset / P + 1) * P) by nia.
    rewrite (u32_small (offset / P + 1)) by lia.
    rewrite (Z.shiftl_mul_pow2 _ shift) by assumption. fold P.
    rewrite HR1, (u32_small R) by lia. now rewrite HRq.
  - assert (HRq : R = offset).
    { subst R. apply round_up_aligned; [assumption|]. fold P. lia. }
    rewrite HRq in *. now replace (offset / P * P) with offset by lia.
Qed.

(** Decoding what the quantizer produced gives back the aligned offset and
    the flag, on representable offsets. *)
Lemma index_to_pos_pos_to_index offset shift raw :
  0 <= shift -> 0 <= offset -> representable offset shift ->
  index_to_pos (fst (pos_to_index offset shift raw)) shift
  = (round_up offset shift, raw).
Proof.
  intros Hs Ho Hrep.
  rewrite pos_to_index_representable by assumption. cbn [fst].
  destruct Hrep as [HR HR31].
  pose proof (round_up_spec offset shift Hs) as [[Hlo Hhi] Hmod].
  pose proof (pow2_pos shift Hs) as HP.
  rewrite Z.pow_add_r in HR31 by lia.
  apply Z.div_exact in Hmod; [|lia].
  set (P := 2 ^ shift) in *. set (R := round_up offset shift) in *.
  assert (Hq : 0 <= R / P < 2 ^ 31).
  { split; [apply Z.div_pos; lia|]. apply Z.div_lt_upper_bound; lia. }
  rewrite index_to_pos_entry by assumption.
  rewrite (Z.shiftl_mul_pow2 _ shift) by assumption. fold P.
  replace (R / P * P) with R by lia.
  now rewrite u32_small by lia.
Qed.

(** C2.  Claimed: for every shift in 0-4, every flag and every offset that
    is a multiple of [2 ^ shift] with [offset >> shift] below [2 ^ 31],
    [index_to_pos] applied to the entry [pos_to_index] produced gives back
    the offset and the flag.  The code shifts 32-bit operands, so no offset
    from [2 ^ 32] on is ever given back, whatever the shift and the flag:
    the decoded position differs from the offset.  ([index_to_pos_pos_to_index]
    above is the round trip that does hold, below that bound.) *)
Theorem index_round_trip_lost_from_4GiB offset shift raw :
  2 ^ 32 <= offset ->
  fst (index_to_pos (fst (pos_to_index offset shift raw)) shift) <> offset.
Proof.
  intros Hbig.
  pose proof (index_to_pos_below_4GiB (fst (pos_to_index offset shift raw)) shift).
  lia.
Qed.

(** The offset [2 ^ 32] with shift 4 meets every condition of C2 (a
    multiple of 16 whose quotient fits 31 bits) and is decoded as 16. *)
Lemma index_round_trip_lost_from_4GiB_witness :
  2 ^ 32 mod 2 ^ 4 = 0 /\ Z.shiftr (2 ^ 32) 4 < 2 ^ 31
  /\ index_to_pos (fst (pos_to_index (2 ^ 32) 4 true)) 4 = (16, true)
  /\ fst (index_to_pos (fst (pos_to_index (2 ^ 32) 4 true)) 4) <> 2 ^ 32.
Proof.
  split; [reflexivity|]. split; [reflexivity|]. split; [reflexivity|].
  apply (index_round_trip_lost_from_4GiB (2 ^ 32) 4 true). lia.
Defined.

(** C3.  Claimed: for every non-negative offset whose quantized value fits
    31 bits and every shift in 0-4, the offset [pos_to_index] writes back is
    at least the input offset and is the least such multiple of
    [2 ^ shift].  The position written back is the result of a 32-bit
    shift: from [2 ^ 32] on it is always below the input offset.
    ([pos_to_index_representable] with [round_up_spec] and [round_up_least]
    is the rounding that does hold, below that bound.) *)
Theorem pos_to_index_falls_below_from_4GiB offset shift raw :
  2 ^ 32 <= offset -> snd (pos_to_index offset shift raw) < offset.
Proof.
  intros Hbig. pose proof (pos_to_index_below_4GiB offset shift raw). lia.
Qed.

(** At offset [2 ^ 32] and shift 4 (quotient [2 ^ 28]) the position written
    back is 16. *)
Lemma pos_to_index_falls_below_from_4GiB_witness :
  Z.shiftr (2 ^ 32) 4 < 2 ^ 31
  /\ pos_to_index (2 ^ 32) 4 false = (2 ^ 28 + 1, 16)
  /\ snd (pos_to_index (2 ^ 32) 4 false) < 2 ^ 32.
Proof.
  split; [reflexivity|]. split; [reflexivity|].
  apply (pos_to_index_falls_below_from_4GiB (2 ^ 32) 4 false). lia.
Defined.

(** ** Block compressor *)

Lemma length_store w buf : length (store w buf) = length buf.
Proof.
  unfold store. rewrite length_app, length_take, length_drop. lia.
Qed.

Lemma take_store w buf :
  (length w <= length buf)%nat -> take (length w) (store w buf) = w.
Proof.
  intros H. unfold store.
  rewrite (take_ge w) by lia.
  now rewrite take_app_length.
Qed.

(** The outcome of [compress_block] by the size the codec yields. *)
Lemma compress_block_fallback lz h src srcSize dst dstSize flag settings :
  0 <= srcSize ->
  let r := codec_size lz h src srcSize dstSize settings in
  let '(size, dst', uncompressed) :=
    compress_block lz h src srcSize dst dstSize flag settings in
  (r = 0 \/ srcSize < r ->
     (srcSize <= dstSize ->
        size = srcSize /\ uncompressed = true
        /\ (srcSize <= Z.of_nat (length src) ->
            srcSize <= Z.of_nat (length dst) ->
            take (Z.to_nat srcSize) dst' = take (Z.to_nat srcSize) src))
     /\ (dstSize < srcSize -> size = 0))
  /\ (r <> 0 -> r <= srcSize -> size = r /\ uncompressed = false).
Proof.
  intros Hsrc r. subst r. unfold codec_size, compress_block.
  destruct (if lz4hc settings then _ else _) as [r written]. cbn [fst].
  assert (Hcopy : forall buf,
            srcSize <= Z.of_nat (length src) ->
            srcSize <= Z.of_nat (length buf) ->
            take (Z.to_nat srcSize)
              (store (take (Z.to_nat srcSize) src) (store written buf))
            = take (Z.to_nat srcSize) src).
  { intros buf Hls Hlb.
    set (s := take (Z.to_nat srcSize) src).
    assert (Hlen : length s = Z.to_nat srcSize)
      by (subst s; rewrite length_take; lia).
    rewrite <- Hlen at 1. apply take_store. rewrite length_store. lia. }
  destruct (Z.eqb_spec (u32 r) 0) as [Hz|Hnz];
    destruct (Z.ltb_spec srcSize (u32 r)) as [Hbig|Hle];
    destruct (Z.ltb_spec dstSize srcSize) as [Hsmall|Hfits];
    cbn [orb]; repeat split; intros; try lia; try reflexivity;
    try (apply Hcopy; assumption);
    try (exfalso; intuition lia).
Qed.

(** An iteration whose call of [compress_block] returns 0 leaves through
    [goto exit]: the return code is 1, and neither the output nor the index
    table has changed. *)
Lemma encode_block_on_zero lz h w settings shift inputSize cur st :
  fst (fst (block_call lz h w settings inputSize st)) = 0 ->
  fst (encode_block lz h w settings shift inputSize cur st) = 1
  /\ outFile (snd (encode_block lz h w settings shift inputSize cur st))
     = outFile st
  /\ blocks (snd (encode_block lz h w settings shift inputSize cur st))
     = blocks st.
Proof.
  unfold block_call, encode_block.
  destruct (read _ _ _) as [inFile' got]. cbn [snd].
  destruct (compress_block _ _ _ _ _ _ _ _) as [[size wb] raw]. cbn [fst].
  intros ->. change (0 <? to_int 0) with false. cbn. auto.
Qed.

(** C5, as amended.  Whatever size the codec yields: if it is zero or
    larger than [srcSize], the block is stored verbatim ([srcSize] is
    returned, the flag is set and the destination starts with the source
    bytes) when [srcSize <= dstSize], and the call is a hard failure that
    returns 0 when [srcSize > dstSize]; if it is non-zero and at most
    [srcSize] (equality included), that size is returned with the flag
    clear.  A result of 0 aborts the encode: the iteration that received it
    leaves with return code 1 and has written nothing, the loop ends with
    that iteration, and the branch returns the code without the end-of-file
    entry and the index rewrite. *)
Theorem compress_block_policy lz h settings :
  (forall src srcSize dst dstSize flag,
     0 <= srcSize ->
     let r := codec_size lz h src srcSize dstSize settings in
     let '(size, dst', uncompressed) :=
       compress_block lz h src srcSize dst dstSize flag settings in
     (r = 0 \/ srcSize < r ->
        (srcSize <= dstSize ->
           size = srcSize /\ uncompressed = true
           /\ (srcSize <= Z.of_nat (length src) ->
               srcSize <= Z.of_nat (length dst) ->
               take (Z.to_nat srcSize) dst' = take (Z.to_nat srcSize) src))
        /\ (dstSize < srcSize -> size = 0))
     /\ (r <> 0 -> r <= srcSize -> size = r /\ uncompressed = false))
  /\ (forall w shift inputSize cur st,
        fst (fst (block_call lz h w settings inputSize st)) = 0 ->
        fst (encode_block lz h w settings shift inputSize cur st) = 1
        /\ outFile (snd (encode_block lz h w settings shift inputSize cur st))
           = outFile st
        /\ blocks (snd (encode_block lz h w settings shift inputSize cur st))
           = blocks st
        /\ forall n,
             block_loop lz h w settings shift inputSize (S n) cur st
             = encode_block lz h w settings shift inputSize cur st)
  /\ (forall w inFile0 inputSize entries shift st0 return_code st',
        encode_init h w settings inFile0
        = Some (inputSize, entries, shift, st0) ->
        block_loop lz h w settings shift inputSize
          (Z.to_nat (entries - 1)) 0 st0 = (return_code, st') ->
        return_code <> 0 ->
        encode lz h w settings inFile0 = Some (return_code, st')).
Proof.
  split; [|split].
  - intros src srcSize dst dstSize flag Hsrc.
    now apply compress_block_fallback.
  - intros w shift inputSize cur st Hzero.
    destruct (encode_block_on_zero lz h w settings shift inputSize cur st Hzero)
      as (Hcode & Hout & Hblocks).
    repeat split; try assumption.
    intros n. cbn [block_loop].
    destruct (encode_block _ _ _ _ _ _ _ _) as [return_code st1].
    cbn [fst] in Hcode. now subst return_code.
  - intros w inFile0 inputSize entries shift st0 return_code st' Hinit Hloop Hcode.
    unfold encode. rewrite Hinit, Hloop.
    destruct (Z.eqb_spec return_code 0); [contradiction|reflexivity].
Qed.

(** The policy at work.  The codec reports 5 bytes for a 2-byte block, which
    is then stored verbatim in a 3-byte buffer.  In the loop, a 4-byte block
    meets a 2-byte write buffer and a codec that yields 0: the call returns
    0 and the iteration leaves with return code 1. *)
Lemma compress_block_policy_witness :
  (fst (fst (compress_block (constant_codec 5 ["009"]%byte) reference_h
               ["a"; "b"]%byte 2 [x00; x00; x00] 3 false reference_opt)) = 2
   /\ snd (compress_block (constant_codec 5 ["009"]%byte) reference_h
             ["a"; "b"]%byte 2 [x00; x00; x00] 3 false reference_opt) = true)
  /\ fst (fst (block_call (constant_codec 0 []) reference_h example_world
                 example_settings 12 short_buffer_state)) = 0
  /\ fst (encode_block (constant_codec 0 []) reference_h example_world
            example_settings 0 12 1 short_buffer_state) = 1
  /\ outFile (snd (encode_block (constant_codec 0 []) reference_h example_world
                     example_settings 0 12 1 short_buffer_state))
     = outFile short_buffer_state.
Proof.
  split; [|split; [reflexivity|]].
  - destruct (compress_block_policy (constant_codec 5 ["009"]%byte) reference_h
                reference_opt) as [Hpolicy _].
    specialize (Hpolicy ["a"; "b"]%byte 2 [x00; x00; x00] 3 false ltac:(lia)).
    cbv zeta in Hpolicy.
    destruct (compress_block _ _ _ _ _ _ _ _) as [[size dst'] uncompressed].
    cbn [fst snd].
    destruct Hpolicy as [H _].
    destruct H as [H _]; [right; reflexivity|].
    destruct H as (Hsize & Hflag & _); [lia|].
    now split.
  - destruct (compress_block_policy (constant_codec 0 []) reference_h
                example_settings) as (_ & Habort & _).
    destruct (Habort example_world 0 12 1%nat short_buffer_state
                ltac:(reflexivity)) as (Hcode & Hout & _).
    now split.
Defined.

(** C5, as stated, fails when the codec yields exactly [srcSize]: a size
    that is not smaller than [srcSize], with [srcSize <= dstSize], and yet
    the flag stays clear and the destination holds the codec's bytes, not
    the source. *)
Lemma compress_block_equal_size_counterexample :
  codec_size (constant_codec 2 ["009"; "009"]%byte) reference_h
    ["a"; "b"]%byte 2 2 reference_opt = 2
  /\ compress_block (constant_codec 2 ["009"; "009"]%byte) reference_h
       ["a"; "b"]%byte 2 [x00; x00] 2 false reference_opt
     = (2, ["009"; "009"]%byte, false)
  /\ ~ (2 <= codec_size (constant_codec 2 ["009"; "009"]%byte) reference_h
               ["a"; "b"]%byte 2 2 reference_opt ->
        2 <= 2 ->
        snd (compress_block (constant_codec 2 ["009"; "009"]%byte) reference_h
               ["a"; "b"]%byte 2 [x00; x00] 2 false reference_opt) = true).
Proof.
  split; [reflexivity|]. split; [reflexivity|].
  intros H. specialize (H ltac:(cbv; discriminate) ltac:(lia)).
  discriminate H.
Qed.

(** ** Option parsing *)

Lemma stoi_range s v : stoi s = Some v -> - 2 ^ 31 <= v < 2 ^ 31.
Proof.
  unfold stoi. destruct (skip_spaces s) as [|c t]; [discriminate|].
  set (p := match String c t with
            | String "-" t => (true, t)
            | String "+" t => (false, t)
            | _ => (false, String c t)
            end).
  destruct p as [negative s']. destruct s' as [|c' t']; [discriminate|].
  destruct (digit_of c'); [|discriminate].
  destruct (_ && _) eqn:Hr; [|discriminate].
  intros [= <-]. apply andb_true_iff in Hr as [H1 H2].
  apply Z.leb_le in H1. apply Z.ltb_lt in H2. exact (conj H1 H2).
Qed.

(** C6.  Claimed: the block size the core reads equals the accepted
    [--block-size] value, hence is at least 512 and never zero.  The
    accepted value is stored through a cast to [uint8_t]: what the core
    reads is the value modulo 256, always below 256 and so never the
    accepted value. *)
Theorem get_options_block_size_is_truncated optarg v options :
  stoi optarg = Some v -> 512 <= v ->
  get_options [("b"%char, optarg)] options
  = (0, set_blockSize options (v mod 256))
  /\ blockSize (snd (get_options [("b"%char, optarg)] options)) < 256
  /\ blockSize (snd (get_options [("b"%char, optarg)] options)) <> v.
Proof.
  intros Hstoi Hv. pose proof (stoi_range _ _ Hstoi) as Hr.
  assert (Hget : get_options [("b"%char, optarg)] options
                 = (0, set_blockSize options (v mod 256))).
  { cbn [get_options]. rewrite Hstoi.
    assert (Hu : u64 v = v) by (unfold u64, wrap; apply Z.mod_small; lia).
    rewrite Hu.
    destruct (Z.eqb_spec v 0); [lia|].
    destruct (Z.ltb_spec v 512); [lia|]. reflexivity. }
  rewrite Hget. cbn [snd set_blockSize blockSize].
  pose proof (Z.mod_pos_bound v 256 ltac:(lia)). repeat split; lia.
Qed.

(** [--block-size 512], the least accepted value, leaves a block size of
    zero. *)
Lemma get_options_block_size_is_truncated_witness :
  stoi "512" = Some 512
  /\ get_options [("b"%char, "512"%string)] reference_opt
     = (0, set_blockSize reference_opt 0).
Proof.
  split; [reflexivity|].
  apply (get_options_block_size_is_truncated "512" 512 reference_opt);
    [reflexivity|lia].
Defined.

(** ** Block count and shift selection *)

(** C7.  Claimed: the number of index entries is the exact integer ceiling
    of [inputSize / blockSize], plus one.  The quotient is computed in
    single precision: 16777217 (2^24 + 1) is not a [float], the conversion
    rounds it to 16777216, and with 2048-byte blocks the count is 8193
    where the exact count is 8194; the last byte of the input gets no
    block. *)
Theorem blocksNumber_single_precision :
  float_of_Z 16777217 = float_of_Z 16777216
  /\ blocksNumber 16777217 2048 = Some 8193
  /\ exact_blocksNumber 16777217 2048 = 8194.
Proof. repeat split; reflexivity. Qed.

(** Below [2 ^ 24] bytes of input the conversion is exact; two of the
    scenarios of the specification. *)
Example blocksNumber_scenarios :
  blocksNumber 0 2048 = Some 1 /\ blocksNumber 4096 2048 = Some 3.
Proof. split; reflexivity. Qed.

(** C1.  Claimed: the selected shift is the least one that keeps every
    offset within 31 bits, the thresholds being tried from the largest
    down, and an input above the 16 GB threshold selects shift 4.  The
    test of the largest threshold is not chained to the next one by an
    [else]: every input above it also passes the 8 GB test, which
    overwrites the 4 with 3. *)
Theorem select_shift_above_16GiB indexShift inputSize headerSize :
  0x3FFFFFFFF - headerSize < inputSize ->
  select_shift indexShift inputSize headerSize = 3.
Proof.
  intros H. unfold select_shift.
  destruct (Z.ltb_spec (0x1FFFFFFFF - headerSize) inputSize); [reflexivity|lia].
Qed.

(** A 16 GiB input with 2048-byte blocks: 8388609 entries, a header of
    33554460 bytes, and shift 3. *)
Lemma select_shift_above_16GiB_witness :
  blocksNumber (2 ^ 34) 2048 = Some 8388609
  /\ headerSize 8388609 = 33554460
  /\ 0x3FFFFFFFF - 33554460 < 2 ^ 34
  /\ select_shift 0 (2 ^ 34) 33554460 = 3.
Proof.
  split; [reflexivity|]. split; [reflexivity|]. split; [reflexivity|].
  apply (select_shift_above_16GiB 0 (2 ^ 34) 33554460). reflexivity.
Defined.

(** Below the largest threshold the chain behaves as written, and the
    shift 4 is selected for no input at all. *)
Lemma select_shift_cases indexShift inputSize headerSize :
  0 <= headerSize <= 0x7FFFFFFF ->
  select_shift indexShift inputSize headerSize
  = if 0x1FFFFFFFF - headerSize <? inputSize then 3
    else if 0xFFFFFFFF - headerSize <? inputSize then 2
    else if 0x7FFFFFFF - headerSize <? inputSize then 1
    else indexShift.
Proof.
  intros Hh. unfold select_shift.
  rewrite !u32_small by lia.
  destruct (Z.ltb_spec (0x1FFFFFFFF - headerSize) inputSize); [reflexivity|].
  destruct (Z.ltb_spec (0x3FFFFFFFF - headerSize) inputSize); [lia|].
  reflexivity.
Qed.

Lemma select_shift_never_4 indexShift inputSize headerSize :
  indexShift <> 4 -> select_shift indexShift inputSize headerSize <> 4.
Proof.
  intros Hinit. unfold select_shift.
  destruct (Z.ltb_spec (0x1FFFFFFFF - headerSize) inputSize); [lia|].
  destruct (_ <? _); [lia|]. destruct (_ <? _); [lia|].
  destruct (Z.ltb_spec (0x3FFFFFFFF - headerSize) inputSize); lia.
Qed.

(** ** The block loop *)

Lemma write_at_end f bytes :
  at_end f ->
  write f bytes
  = {| o_data := o_data f ++ bytes;
       o_pos := o_pos f + Z.of_nat (length bytes) |}.
Proof.
  unfold at_end, write. intros ->.
  rewrite Nat2Z.id, Nat.sub_diag. cbn [replicate].
  rewrite app_nil_r, take_ge, drop_ge by lia.
  now rewrite app_nil_r.
Qed.

Lemma at_end_write f bytes : at_end f -> at_end (write f bytes).
Proof.
  intros H. rewrite write_at_end by assumption.
  unfold at_end in *. cbn. rewrite length_app. lia.
Qed.

#[local] Hint Resolve at_end_write : core.

(** The loop starts at the end of the header and the placeholder index. *)
Lemma encode_init_at_end h w settings inFile0 inputSize entries shift st :
  encode_init h w settings inFile0 = Some (inputSize, entries, shift, st) ->
  at_end (outFile st).
Proof.
  unfold encode_init. destruct (blocksNumber _ _); [|discriminate].
  intros [= _ _ _ <-]. cbn [outFile].
  assert (at_end {| o_data := []; o_pos := 0 |}) by reflexivity.
  auto.
Qed.

Section BlockLoop.

Context (lz : lz4) (h : ziso_h) (w : world) (settings : opt).
Context (shift inputSize : Z).

Local Abbreviation step := (encode_block lz h w settings shift inputSize).
Local Abbreviation loop := (block_loop lz h w settings shift inputSize).

(** What a successful iteration does to the output: the payload goes to the
    position the block started at, the padding follows the payload, and the
    entry of the block is the quantized start position. *)
Lemma encode_block_output cur st st' :
  at_end (outFile st) ->
  step cur st = (0, st') ->
  exists payload raw,
    let start := tellp (outFile st) in
    o_data (outFile st')
    = o_data (outFile st) ++ payload
      ++ padding start (snd (pos_to_index start shift false))
    /\ blocks st' = <[cur := fst (pos_to_index start shift raw)]> (blocks st)
    /\ at_end (outFile st').
Proof.
  intros Hend. unfold encode_block.
  destruct (read _ _ _) as [inFile' got].
  destruct (compress_block _ _ _ _ _ _ _ _) as [[size wb] raw].
  destruct (0 <? to_int size); [|discriminate].
  destruct (pos_to_index _ _ raw) as [entry real] eqn:Hpos.
  intros [= <-]. cbn [outFile blocks].
  exists (take (Z.to_nat (to_int size)) wb), raw. cbv zeta.
  rewrite Hpos. cbn [fst].
  rewrite <- (pos_to_index_position _ _ raw), Hpos. cbn [snd].
  pose proof (at_end_write _ (take (Z.to_nat (to_int size)) wb) Hend) as Hend1.
  split; [|split]; [|reflexivity|auto].
  rewrite (write_at_end (write _ _)) by assumption. cbn [o_data].
  rewrite write_at_end by assumption. cbn [o_data].
  now rewrite <- app_assoc.
Qed.

(** Writing at the end is an invariant of the loop, also when an iteration
    fails. *)
Lemma encode_block_at_end cur st :
  at_end (outFile st) -> at_end (outFile (snd (step cur st))).
Proof.
  intros Hend. unfold encode_block.
  destruct (read _ _ _) as [inFile' got].
  destruct (compress_block _ _ _ _ _ _ _ _) as [[size wb] raw].
  destruct (0 <? to_int size); [|exact Hend].
  destruct (pos_to_index _ _ raw) as [entry real]. cbn [snd outFile]. auto.
Qed.

Lemma block_loop_at_end n cur st :
  at_end (outFile st) -> at_end (outFile (snd (loop n cur st))).
Proof.
  revert cur st. induction n as [|n IH]; intros cur st Hend; [exact Hend|].
  cbn [block_loop].
  pose proof (encode_block_at_end cur st Hend) as Hstep.
  destruct (step cur st) as [return_code st1]. cbn [snd] in Hstep.
  destruct (return_code =? 0); [apply IH|]; assumption.
Qed.

(** C4.  Claimed: when the quantizer rounds the start offset of a block up,
    exactly [aligned - offset] zero bytes are emitted, they fill the stream
    from the true write position to the aligned offset, and the payload
    begins at the aligned offset.  In the loop the payload is written
    first, at the true (unaligned) position, the zeros are written after
    it, and the padding loop runs over [start <= i <= aligned], which makes
    [aligned - offset + 1] of them. *)
Theorem encode_block_pads_after_payload cur st st' :
  at_end (outFile st) ->
  step cur st = (0, st') ->
  let offset := tellp (outFile st) in
  let aligned := snd (pos_to_index offset shift false) in
  offset < aligned ->
  exists payload,
    o_data (outFile st')
    = o_data (outFile st) ++ payload
      ++ replicate (Z.to_nat (aligned - offset + 1)) x00.
Proof.
  intros Hend Hstep offset aligned Hlt.
  destruct (encode_block_output _ _ _ Hend Hstep)
    as (payload & raw & Hout & _ & _).
  exists payload. cbv zeta in Hout. rewrite Hout.
  unfold padding. fold offset. fold aligned.
  destruct (Z.ltb_spec offset aligned); [reflexivity|lia].
Qed.

(** C8.  Claimed: decoded offsets are non-decreasing and the difference
    between the next decoded offset and a block's own is at most
    [blockSize] for a compressed block and equal to the stored length for a
    raw block.  The entry that follows a block, be it the entry of the next
    block or the end-of-file entry, is the quantized position [next] the
    stream has reached ([encode_block_output], [finish_index_entry]).  For
    every block whose start was rounded up, the padding written after the
    payload makes the decoded difference exceed the stored length, also
    when the block is stored raw. *)
Theorem rounded_block_decodes_longer_than_stored cur st st' raw' :
  0 <= shift ->
  at_end (outFile st) ->
  step cur st = (0, st') ->
  let start := tellp (outFile st) in
  let next := tellp (outFile st') in
  start < snd (pos_to_index start shift false) ->
  representable start shift -> representable next shift ->
  exists payload entry,
    o_data (outFile st')
    = o_data (outFile st) ++ payload
      ++ padding start (snd (pos_to_index start shift false))
    /\ blocks st' = <[cur := entry]> (blocks st)
    /\ Z.of_nat (length payload)
       < fst (index_to_pos (fst (pos_to_index next shift raw')) shift)
         - fst (index_to_pos entry shift).
Proof.
  intros Hs Hend Hstep start next Hup Hrep Hrep'.
  destruct (encode_block_output _ _ _ Hend Hstep)
    as (payload & raw & Hout & Hblocks & Hend').
  cbv zeta in Hout, Hblocks. fold start in Hout, Hblocks.
  exists payload, (fst (pos_to_index start shift raw)).
  split; [exact Hout|]. split; [exact Hblocks|].
  assert (H0 : 0 <= start) by (unfold start, tellp; rewrite Hend; lia).
  assert (H0' : 0 <= next) by (unfold next, tellp; rewrite Hend'; lia).
  rewrite !index_to_pos_pos_to_index by assumption. cbn [fst].
  rewrite pos_to_index_representable in Hup, Hout by assumption.
  cbn [snd] in Hup, Hout.
  pose proof (round_up_spec next shift Hs) as [[Hlo _] _].
  assert (Hnext : next = round_up start shift
                         + Z.of_nat (length payload) + 1).
  { unfold next, tellp. rewrite Hend', Hout, !length_app.
    unfold padding. destruct (Z.ltb_spec start (round_up start shift)); [|lia].
    rewrite length_replicate. unfold start, tellp in *.
    rewrite Hend in *. lia. }
  lia.
Qed.

End BlockLoop.

(** The end-of-file entry is the quantized final position. *)
Lemma finish_index_entry shift blocksNumber st :
  (Z.to_nat (blocksNumber - 1) < length (blocks st))%nat ->
  blocks (finish_index shift blocksNumber st) !! Z.to_nat (blocksNumber - 1)
  = Some (fst (pos_to_index (tellp (outFile st)) shift false)).
Proof.
  intros Hlen. unfold finish_index.
  destruct (pos_to_index _ _ _) as [entry real]. cbn [blocks fst].
  now apply list_lookup_insert_eq.
Qed.

(** Shift 1 is what a 2 GiB input gets with 2048-byte blocks: 1048577
    entries, and a header and index of 4194332 bytes, so that block 0
    starts at an even position and block 1 at an odd one as soon as the
    payload of block 0 has an odd length. *)
Example select_shift_2GiB :
  blocksNumber (2 ^ 31) 2048 = Some 1048577
  /\ headerSize 1048577 = 4194332
  /\ select_shift 0 (2 ^ 31) 4194332 = 1.
Proof. repeat split; reflexivity. Qed.

(** A block that starts at the odd position 43 under shift 1: the entry is
    22 and decodes to 44, the three payload bytes are at 43, and two zero
    bytes follow them where [44 - 43 = 1] was announced. *)
Lemma encode_block_pads_after_payload_witness :
  pos_to_index 43 1 false = (22, 44)
  /\ index_to_pos 22 1 = (44, false)
  /\ exists payload,
       o_data (outFile (snd (encode_block example_codec reference_h
                               example_world example_settings 1 12 1
                               example_state)))
       = replicate 43 "007"%byte ++ payload ++ replicate 2 x00.
Proof.
  split; [reflexivity|]. split; [reflexivity|].
  apply (encode_block_pads_after_payload example_codec reference_h
           example_world example_settings 1 12 1 example_state
           (snd (encode_block example_codec reference_h example_world
                   example_settings 1 12 1 example_state)));
    reflexivity.
Defined.

Example encode_block_example :
  o_data (outFile (snd (encode_block example_codec reference_h example_world
                          example_settings 1 12 1 example_state)))
  = replicate 43 "007"%byte ++ ["001"; "002"; "003"; x00; x00]%byte.
Proof. reflexivity. Qed.

(** A raw block of 4 bytes that starts at position 43 under shift 1: its
    entry decodes to 44, the stream then stands at 49 and the next entry
    decodes to 50, six bytes further. *)
Lemma rounded_block_decodes_longer_than_stored_witness :
  blocks (snd (encode_block (constant_codec 0 []) reference_h example_world
                 example_settings 1 12 1 example_state))
  = [20; 22 + 2 ^ 31; 0; 0]
  /\ index_to_pos (22 + 2 ^ 31) 1 = (44, true)
  /\ index_to_pos (fst (pos_to_index 49 1 false)) 1 = (50, false)
  /\ exists payload entry,
       o_data (outFile (snd (encode_block (constant_codec 0 []) reference_h
                               example_world example_settings 1 12 1
                               example_state)))
       = replicate 43 "007"%byte ++ payload ++ padding 43 44
       /\ blocks (snd (encode_block (constant_codec 0 []) reference_h
                         example_world example_settings 1 12 1 example_state))
          = <[1%nat := entry]> [20; 0; 0; 0]
       /\ Z.of_nat (length payload)
          < fst (index_to_pos (fst (pos_to_index 49 1 false)) 1)
            - fst (index_to_pos entry 1).
Proof.
  split; [reflexivity|]. split; [reflexivity|]. split; [reflexivity|].
  apply (rounded_block_decodes_longer_than_stored (constant_codec 0 [])
           reference_h example_world example_settings 1 12 1 example_state
           (snd (encode_block (constant_codec 0 []) reference_h example_world
                   example_settings 1 12 1 example_state)) false);
    [lia | reflexivity | reflexivity | reflexivity
     | split; reflexivity | split; reflexivity].
Defined.

(** The same state carried to the end of the loop and through the
    end-of-file entry: two raw blocks of 4 bytes each, whose entries decode
    to offsets 6 bytes apart. *)
Example index_example :
  let st := snd (block_loop (constant_codec 0 []) reference_h example_world
                   example_settings 1 12 2 1 example_state) in
  map (fun entry => index_to_pos entry 1) (blocks (finish_index 1 4 st))
  = [(40, false); (44, true); (50, true); (56, false)].
Proof. reflexivity. Qed.

(** ** [main] *)

Lemma detect_overwrite settings file_format :
  overwrite (detect settings file_format) = overwrite settings.
Proof.
  unfold detect. destruct (is_ziso file_format); cbn;
    destruct (String.eqb _ _); reflexivity.
Qed.


(** Opening an existing file and reading the tag. *)
Lemma read_tag w path data :
  files w !! path = Some data ->
  i_fail (ifstream_open w path) = false
  /\ snd (read w (ifstream_open w path) 4) = take 4 data.
Proof.
  intros H. unfold read, ifstream_open, content. cbn. rewrite H. cbn.
  split; [reflexivity|]. rewrite drop_0.
  destruct (Z.leb_spec 4 (Z.of_nat (length data))); cbn; [reflexivity|].
  rewrite take_ge by lia. reflexivity.
Qed.

(** The guard at work: when the run reaches the test of the output name,
    an existing destination that may not be overwritten ends the run with
    code 1 and the file system as it was. *)
Lemma main_refuses_existing_output lz h args w settings data :
  get_options args (opt_init h) = (0, settings) ->
  inputFile settings <> ""%string ->
  files w !! inputFile settings = Some data ->
  overwrite settings = false ->
  is_Some (files w !! outputFile (detect settings (take 4 data))) ->
  main lz h args w = Exit 1 w.
Proof.
  intros Hopts Hname Hin Hover Hout. unfold main. rewrite Hopts. cbn [negb Z.eqb].
  apply String.eqb_neq in Hname. rewrite Hname.
  destruct (read_tag w _ _ Hin) as [Hfail Hread]. rewrite Hfail.
  destruct (read w _ 4) as [inFile1 file_format]. cbn [snd] in Hread. subst.
  rewrite detect_overwrite, Hover. cbn [negb andb].
  rewrite bool_decide_eq_true_2 by assumption.
  reflexivity.
Qed.

(** C9.  Claimed: if the destination exists and overwriting was not
    permitted, the run fails before a byte is written and the existing file
    is neither modified nor deleted.  The guard that protects the file (it
    sets [keepOutput]) is reached only once the input has been opened: when
    the input file cannot be opened, the run fails with code 1 through the
    same [exit:] epilogue, [keepOutput] still has its default, and the
    existing destination is removed. *)
Theorem main_removes_existing_output lz h args w settings data :
  get_options args (opt_init h) = (0, settings) ->
  inputFile settings <> ""%string ->
  files w !! inputFile settings = None ->
  overwrite settings = false ->
  keepOutput settings = false ->
  files w !! outputFile settings = Some data ->
  outputFile settings ∉ locked w ->
  main lz h args w
  = Exit 1 (set_files w (delete (outputFile settings) (files w))).
Proof.
  intros Hopts Hname Hin _ Hkeep Hout Hfree. unfold main. rewrite Hopts.
  cbn [negb Z.eqb].
  apply String.eqb_neq in Hname. rewrite Hname.
  unfold ifstream_open. cbn [i_fail]. rewrite Hin.
  unfold exit_. cbn [Z.eqb]. rewrite Hkeep, Hout.
  unfold remove. now rewrite decide_False by assumption.
Qed.

(** [ziso -i missing.iso -o game.zso] where only game.zso exists: the run
    returns 1 and game.zso is gone. *)
Lemma main_removes_existing_output_witness :
  files saved_world !! "game.zso"%string = Some ["s"; "a"; "v"; "e"; "d"]%byte
  /\ main example_codec reference_h
       [("i"%char, "missing.iso"%string); ("o"%char, "game.zso"%string)]
       saved_world
     = Exit 1 (set_files saved_world (delete "game.zso"%string (files saved_world)))
  /\ files (set_files saved_world (delete "game.zso"%string (files saved_world)))
       !! "game.zso"%string = None.
Proof.
  split; [reflexivity|]. split; [|reflexivity].
  apply (main_removes_existing_output example_codec reference_h
           [("i"%char, "missing.iso"%string); ("o"%char, "game.zso"%string)]
           saved_world
           (set_outputFile (set_inputFile reference_opt "missing.iso") "game.zso")
           ["s"; "a"; "v"; "e"; "d"]%byte).
  - reflexivity.
  - discriminate.
  - reflexivity.
  - reflexivity.
  - reflexivity.
  - reflexivity.
  - cbn. set_solver.
Defined.

Lemma is_ziso_tag data :
  is_ziso (take 4 data) = true
  <-> exists rest, data = ("Z" :: "I" :: "S" :: "O" :: rest)%byte.
Proof.
  split.
  - destruct data as [|a [|b [|c [|d rest]]]]; cbn;
      try (destruct (Byte.eqb _ _); cbn; try discriminate;
           repeat (destruct (Byte.eqb _ _); cbn; try discriminate); fail).
    + discriminate.
    + intros H. rewrite !andb_true_iff in H. destruct H as [[[Ha Hb] Hc] Hd].
      apply Byte.byte_dec_bl in Ha, Hb, Hc, Hd. subst. now exists rest.
  - intros [rest ->]. reflexivity.
Qed.




(** A complete run of the compression branch: ten bytes, [-b 516] (a block
    size of 4 once truncated), a codec that reports 3 bytes per block.  The
    output holds the 24-byte header, four index entries (40, 43, 46 with
    the raw flag, 48), two compressed blocks and the last two input bytes
    stored raw. *)
Example main_compress_example :
  main example_codec reference_h
    [("i"%char, "a.iso"%string); ("b"%char, "516"%string)]
    {| files := {[ "a.iso"%string := replicate 10 "A"%byte ]}; locked := ∅ |}
  = Exit 0
      {| files :=
           <[ "a.zso"%string :=
                (["Z"; "I"; "S"; "O"; "010"; x00; x00; x00; x00; x00; x00; x00;
                  "004"; x00; x00; x00; x00; x00; x00; x00; x00; x00; x00; x00;
                  "("; x00; x00; x00; "+"; x00; x00; x00;
                  "."; x00; x00; "128"; "0"; x00; x00; x00;
                  "001"; "002"; "003"; "001"; "002"; "003"; "A"; "A"]%byte) ]>
             {[ "a.iso"%string := replicate 10 "A"%byte ]};
         locked := ∅ |}.
Proof. vm_compute. reflexivity. Qed.

(** * Further properties *)

(** ** Offset quantizer, on representable offsets *)

(** X1.  On a representable offset [pos_to_index] rounds up: the position
    it writes back is a multiple of [2 ^ shift], is not below the offset,
    exceeds it by less than [2 ^ shift], and is the least such multiple. *)
Theorem pos_to_index_rounds_up offset shift raw :
  0 <= shift -> 0 <= offset -> representable offset shift ->
  let aligned := snd (pos_to_index offset shift raw) in
  offset <= aligned < offset + 2 ^ shift
  /\ aligned mod 2 ^ shift = 0
  /\ forall m, offset <= m -> m mod 2 ^ shift = 0 -> aligned <= m.
Proof.
  intros Hs Ho Hrep aligned. subst aligned.
  rewrite pos_to_index_representable by assumption. cbn [snd].
  pose proof (round_up_spec offset shift Hs) as [Hb Hm].
  split; [exact Hb|]. split; [exact Hm|].
  intros m Hle Hmm. now apply round_up_least.
Qed.

Lemma pos_to_index_rounds_up_witness :
  pos_to_index 4097 4 true = (257 + 2 ^ 31, 4112)
  /\ 4097 <= 4112 < 4097 + 2 ^ 4 /\ 4112 mod 2 ^ 4 = 0.
Proof.
  split; [reflexivity|].
  pose proof (pos_to_index_rounds_up 4097 4 true ltac:(lia) ltac:(lia)
                ltac:(split; reflexivity)) as H.
  cbv zeta in H. destruct H as (H1 & H2 & _).
  change (snd (pos_to_index 4097 4 true)) with 4112 in H1, H2.
  split; assumption.
Defined.

(** X2.  On a representable offset, decoding the entry [pos_to_index]
    returns gives the position [pos_to_index] wrote back and the flag it
    was given. *)
Theorem index_to_pos_inverts_pos_to_index offset shift raw :
  0 <= shift -> 0 <= offset -> representable offset shift ->
  index_to_pos (fst (pos_to_index offset shift raw)) shift
  = (snd (pos_to_index offset shift raw), raw).
Proof.
  intros Hs Ho Hrep.
  rewrite index_to_pos_pos_to_index by assumption.
  now rewrite pos_to_index_representable by assumption.
Qed.

Lemma index_to_pos_inverts_pos_to_index_witness :
  index_to_pos (fst (pos_to_index 4097 4 true)) 4 = (4112, true).
Proof.
  apply (index_to_pos_inverts_pos_to_index 4097 4 true);
    [lia | lia | split; reflexivity].
Defined.

(** X3.  Quantizing a position that [pos_to_index] wrote back changes
    nothing: the same position comes back, with the same quotient in the
    index entry. *)
Theorem pos_to_index_idempotent offset shift raw raw' :
  0 <= shift -> 0 <= offset -> representable offset shift ->
  pos_to_index (snd (pos_to_index offset shift raw)) shift raw'
  = (Z.lor (Z.land (fst (pos_to_index offset shift raw)) 0x7FFFFFFF)
       (Z.shiftl (Z.b2z raw') 31),
     snd (pos_to_index offset shift raw)).
Proof.
  intros Hs Ho Hrep.
  pose proof (round_up_spec offset shift Hs) as [[Hlo Hhi] Hmod].
  pose proof (pow2_pos shift Hs) as HP.
  assert (Hfix : round_up (round_up offset shift) shift = round_up offset shift)
    by (now apply round_up_aligned).
  assert (Hrep' : representable (round_up offset shift) shift)
    by (unfold representable; now rewrite Hfix).
  rewrite (pos_to_index_representable offset) by assumption. cbn [fst snd].
  rewrite pos_to_index_representable by (assumption || lia).
  rewrite Hfix. f_equal. f_equal.
  rewrite Z.land_lor_distr_l, flag_bit_low, Z.lor_0_r.
  symmetry. apply land_low31.
  destruct Hrep as [_ H31]. rewrite Z.pow_add_r in H31 by lia.
  split; [apply Z.div_pos; lia|]. apply Z.div_lt_upper_bound; lia.
Qed.

Lemma pos_to_index_idempotent_witness :
  pos_to_index 4097 4 true = (257 + 2 ^ 31, 4112)
  /\ pos_to_index 4112 4 false = (257, 4112).
Proof.
  split; [reflexivity|].
  apply (pos_to_index_idempotent 4097 4 true false);
    [lia | lia | split; reflexivity].
Defined.

(** ** Block compressor *)

Lemma compress_block_bounds lz h src srcSize dst dstSize flag settings :
  0 <= srcSize ->
  0 <= fst (fst (compress_block lz h src srcSize dst dstSize flag settings))
    <= srcSize
  /\ length (snd (fst (compress_block lz h src srcSize dst dstSize flag settings)))
     = length dst.
Proof.
  intros Hsrc. unfold compress_block.
  destruct (if lz4hc settings then _ else _) as [r written].
  pose proof (u32_range r) as Hr.
  destruct (Z.eqb_spec (u32 r) 0) as [Hz|Hnz];
    destruct (Z.ltb_spec srcSize (u32 r)) as [Hbig|Hle];
    destruct (Z.ltb_spec dstSize srcSize) as [Hsmall|Hfits];
    cbn [orb fst snd]; rewrite ?length_store; split; (lia || reflexivity).
Qed.

(** X4.  Whatever the codec does, [compress_block] never reports more
    bytes than the block has, and the destination buffer keeps its
    length. *)
Theorem compress_block_never_expands lz h src srcSize dst dstSize flag settings :
  0 <= srcSize ->
  let '(size, dst', _) :=
    compress_block lz h src srcSize dst dstSize flag settings in
  0 <= size <= srcSize /\ length dst' = length dst.
Proof.
  intros Hsrc.
  pose proof (compress_block_bounds lz h src srcSize dst dstSize flag settings
                Hsrc) as H.
  now destruct (compress_block _ _ _ _ _ _ _ _) as [[size dst'] raw].
Qed.

Lemma compress_block_never_expands_witness :
  let '(size, dst', _) :=
    compress_block (constant_codec 9 ["001"; "002"; "003"; "004"; "005"]%byte)
      reference_h ["a"; "b"]%byte 2 [x00; x00; x00] 3 false reference_opt in
  0 <= size <= 2 /\ length dst' = 3%nat.
Proof.
  apply (compress_block_never_expands
           (constant_codec 9 ["001"; "002"; "003"; "004"; "005"]%byte)
           reference_h ["a"; "b"]%byte 2 [x00; x00; x00] 3 false reference_opt).
  lia.
Defined.

Lemma compress_block_of_nothing lz h src dst dstSize flag settings :
  0 <= dstSize ->
  fst (fst (compress_block lz h src 0 dst dstSize flag settings)) = 0.
Proof.
  intros Hdst. unfold compress_block.
  destruct (if lz4hc settings then _ else _) as [r written].
  pose proof (u32_range r) as Hr.
  destruct (Z.eqb_spec (u32 r) 0) as [Hz|Hnz];
    destruct (Z.ltb_spec 0 (u32 r)) as [Hbig|Hle];
    destruct (Z.ltb_spec dstSize 0) as [Hsmall|Hfits];
    cbn [orb fst]; lia.
Qed.

(** X5.  An empty block cannot be stored.  With [srcSize = 0] the result of
    [compress_block] is 0 whatever the codec yields (a non-zero size is
    larger than the block, and the verbatim copy has length 0).  The block
    loop takes that for a compression error: an iteration that finds no
    input left leaves through [goto exit] with return code 1 and has
    written nothing. *)
Theorem compress_block_empty_block lz h settings :
  (forall src dst dstSize flag,
     0 <= dstSize ->
     fst (fst (compress_block lz h src 0 dst dstSize flag settings)) = 0)
  /\ (forall w shift inputSize cur st,
        0 <= blockSize settings ->
        u64 (inputSize - tellg (inFile st)) = 0 ->
        fst (encode_block lz h w settings shift inputSize cur st) = 1
        /\ outFile (snd (encode_block lz h w settings shift inputSize cur st))
           = outFile st
        /\ blocks (snd (encode_block lz h w settings shift inputSize cur st))
           = blocks st).
Proof.
  split; [intros; now apply compress_block_of_nothing|].
  intros w shift inputSize cur st Hbs Hleft.
  apply encode_block_on_zero. unfold block_call. rewrite Hleft.
  assert (HtoRead : (if 0 <? blockSize settings then 0 else blockSize settings)
                    = 0)
    by (destruct (Z.ltb_spec 0 (blockSize settings)); lia).
  rewrite HtoRead. change (u32 0) with 0.
  apply compress_block_of_nothing. apply u32_range.
Qed.

(** All twelve bytes of the input have been read, and the loop runs once
    more. *)
Lemma compress_block_empty_block_witness :
  fst (fst (compress_block (constant_codec 1 [x00]) reference_h [] 0
              [x00; x00] 2 false reference_opt)) = 0
  /\ fst (encode_block (constant_codec 1 [x00]) reference_h example_world
            example_settings 0 12 3 exhausted_state) = 1
  /\ outFile (snd (encode_block (constant_codec 1 [x00]) reference_h
                     example_world example_settings 0 12 3 exhausted_state))
     = outFile exhausted_state.
Proof.
  split.
  - apply (proj1 (compress_block_empty_block (constant_codec 1 [x00])
                    reference_h reference_opt)).
    lia.
  - destruct (proj2 (compress_block_empty_block (constant_codec 1 [x00])
                       reference_h example_settings)
                example_world 0 12 3%nat exhausted_state
                ltac:(cbn; lia) ltac:(reflexivity)) as (Hcode & Hout & _).
    now split.
Defined.

(** The loop does run once more than there are blocks for some inputs: the
    single-precision count of an input of 16777227 bytes in 3-byte blocks
    (what [-b 515] leaves) is one above the exact count. *)
Example blocksNumber_one_too_many :
  blocksNumber 16777227 3 = Some 5592411
  /\ exact_blocksNumber 16777227 3 = 5592410.
Proof. split; reflexivity. Qed.

(** ** Option parsing *)

Lemma u8_u64 v : u8 (u64 v) = v mod 256.
Proof.
  unfold u8, u64, wrap.
  change (2 ^ 64) with (256 * 2 ^ 56). change (2 ^ 8) with 256.
  rewrite Z.rem_mul_r by lia.
  rewrite Z.mul_comm, Z.mod_add by lia.
  apply Z.mod_mod. lia.
Qed.

(** X6.  A compression level is accepted exactly when it is between 1 and
    12, and is then stored unchanged; any other number (negative ones
    included) and any text [stoi] refuses end the parsing with code 1 and
    leave the options as they were. *)
Theorem get_options_compression_level optarg rest options :
  get_options (("c"%char, optarg) :: rest) options
  = match stoi optarg with
    | Some v =>
        if (1 <=? v) && (v <=? 12)
        then get_options rest (set_compressionLevel options v)
        else (1, options)
    | None => (1, options)
    end.
Proof.
  cbn [get_options].
  destruct (stoi optarg) as [v|] eqn:Hstoi; [|reflexivity].
  pose proof (stoi_range _ _ Hstoi) as Hr.
  rewrite u8_u64.
  destruct (Z.leb_spec 1 v) as [H1|H1]; cbn [andb].
  - assert (Hu : u64 v = v) by (unfold u64, wrap; apply Z.mod_small; lia).
    rewrite Hu.
    destruct (Z.ltb_spec v 1); [lia|].
    destruct (Z.leb_spec v 12); destruct (Z.ltb_spec 12 v); try lia; cbn [orb].
    + now rewrite Z.mod_small by lia.
    + reflexivity.
  - destruct (Z.eq_dec v 0) as [->|Hnz]; [reflexivity|].
    assert (Hu : u64 v = v + 2 ^ 64).
    { unfold u64, wrap. symmetry. apply Z.mod_unique with (q := -1); lia. }
    rewrite Hu.
    destruct (Z.ltb_spec (v + 2 ^ 64) 1); [lia|].
    destruct (Z.ltb_spec 12 (v + 2 ^ 64)); [reflexivity|lia].
Qed.

(** X7.  Block sizes from 0 to 511 are refused with code 1 and the options
    untouched.  A negative number passes the test, because it is compared
    after its conversion to [uint64_t], and leaves its value modulo 256 as
    the block size. *)
Theorem get_options_block_size_validation optarg v rest options :
  stoi optarg = Some v ->
  (0 <= v < 512 ->
   get_options (("b"%char, optarg) :: rest) options = (1, options))
  /\ (v < 0 ->
      get_options (("b"%char, optarg) :: rest) options
      = get_options rest (set_blockSize options (v mod 256))).
Proof.
  intros Hstoi. pose proof (stoi_range _ _ Hstoi) as Hr.
  cbn [get_options]. rewrite Hstoi, u8_u64. split; intros Hv.
  - assert (Hu : u64 v = v) by (unfold u64, wrap; apply Z.mod_small; lia).
    rewrite Hu.
    destruct (Z.eqb_spec v 0); [reflexivity|].
    destruct (Z.ltb_spec v 512); [reflexivity|lia].
  - assert (Hu : u64 v = v + 2 ^ 64).
    { unfold u64, wrap. symmetry. apply Z.mod_unique with (q := -1); lia. }
    rewrite Hu.
    destruct (Z.eqb_spec (v + 2 ^ 64) 0); [lia|].
    destruct (Z.ltb_spec (v + 2 ^ 64) 512); [lia|]. reflexivity.
Qed.

Lemma get_options_block_size_validation_witness :
  get_options [("b"%char, "511"%string)] reference_opt = (1, reference_opt)
  /\ get_options [("b"%char, "-1"%string)] reference_opt
     = (0, set_blockSize reference_opt 255).
Proof.
  split.
  - apply (get_options_block_size_validation "511" 511 [] reference_opt);
      [reflexivity|lia].
  - apply (get_options_block_size_validation "-1" (-1) [] reference_opt);
      [reflexivity|lia].
Defined.

(** Parsing ends with 0 or 1. *)
Lemma get_options_code args options :
  fst (get_options args options) = 0 \/ fst (get_options args options) = 1.
Proof.
  revert options. induction args as [|[ch optarg] rest IH]; intros options;
    [now left|].
  cbn [get_options].
  destruct ch as [[] [] [] [] [] [] [] []]; try apply IH; try (now left);
    destruct (stoi optarg); try (now right);
    destruct (_ || _); try (now right); apply IH.
Qed.

(** ** Output name *)

Lemma find_last_of_app c s1 s2 :
  find_last_of c (s1 ++ s2)%string
  = match find_last_of c s2 with
    | Some i => Some (String.length s1 + i)%nat
    | None => find_last_of c s1
    end.
Proof.
  induction s1 as [|a s1 IH].
  - change (""%string ++ s2)%string with s2. cbn.
    now destruct (find_last_of c s2).
  - change (find_last_of c (String a (s1 ++ s2))%string
            = match find_last_of c s2 with
              | Some i => Some (S (String.length s1 + i))
              | None => find_last_of c (String a s1)
              end).
    cbn [find_last_of]. rewrite IH. now destruct (find_last_of c s2).
Qed.

Lemma substring_prefix s1 s2 :
  substring 0 (String.length s1) (s1 ++ s2)%string = s1.
Proof.
  induction s1 as [|a s1 IH].
  - change (""%string ++ s2)%string with s2. now destruct s2.
  - change (String a s1 ++ s2)%string with (String a (s1 ++ s2))%string.
    cbn [String.length substring]. now rewrite IH.
Qed.

(** X8.  The output name.  A name given with [-o] is kept.  Otherwise the
    input name is cut at its last dot and gets the extension of the other
    format: [.iso] when the input starts with the tag, [.zso] when it does
    not (and compression is the mode the options start in). *)
Theorem detect_output_name settings file_format base ext :
  (outputFile settings <> ""%string ->
   outputFile (detect settings file_format) = outputFile settings)
  /\ (outputFile settings = ""%string ->
      inputFile settings = (base ++ "." ++ ext)%string ->
      find_last_of "." ext = None ->
      compress settings = true ->
      outputFile (detect settings file_format)
      = (base ++ (if is_ziso file_format then ".iso" else ".zso"))%string).
Proof.
  unfold detect. split.
  - intros Hname. apply String.eqb_neq in Hname.
    destruct (is_ziso file_format); cbn [outputFile set_compress];
      now rewrite Hname.
  - intros Hname Hin Hext Hmode.
    assert (Hraw : rawName (base ++ "." ++ ext) = base).
    { unfold rawName. rewrite find_last_of_app.
      change ("." ++ ext)%string with (String "." ext).
      cbn [find_last_of]. rewrite Hext. cbn [Ascii.eqb Bool.eqb].
      rewrite Nat.add_0_r. apply substring_prefix. }
    destruct (is_ziso file_format);
      cbn [outputFile inputFile compress set_compress set_outputFile];
      rewrite Hname; cbn [String.eqb outputFile set_outputFile];
      rewrite Hin, Hraw, ?Hmode; reflexivity.
Qed.

Lemma detect_output_name_witness :
  outputFile (detect (set_inputFile reference_opt "disc.1/game.iso")
                ["C"; "D"; "0"; "0"]%byte)
  = "disc.1/game.zso"%string.
Proof.
  apply (detect_output_name (set_inputFile reference_opt "disc.1/game.iso")
           ["C"; "D"; "0"; "0"]%byte "disc.1/game" "iso");
    reflexivity.
Defined.

(** ** Shift selection below the largest threshold *)

(** X9.  For an input up to the 16 GB threshold, with the shift starting
    at 0, the selected shift is adequate and minimal for the input plus its
    header and index: that sum, divided by [2 ^ shift], is below [2 ^ 31],
    and no smaller shift achieves this. *)
Theorem select_shift_adequate inputSize headerSize :
  0 <= headerSize <= 0x7FFFFFFF ->
  0 <= inputSize <= 0x3FFFFFFFF - headerSize ->
  let shift := select_shift 0 inputSize headerSize in
  0 <= shift <= 3
  /\ (inputSize + headerSize) / 2 ^ shift < 2 ^ 31
  /\ (0 < shift -> 2 ^ 31 <= (inputSize + headerSize) / 2 ^ (shift - 1)).
Proof.
  intros Hh Hi shift. subst shift.
  rewrite select_shift_cases by assumption.
  destruct (Z.ltb_spec (0x1FFFFFFFF - headerSize) inputSize);
    [|destruct (Z.ltb_spec (0xFFFFFFFF - headerSize) inputSize);
      [|destruct (Z.ltb_spec (0x7FFFFFFF - headerSize) inputSize)]];
    cbn [Z.sub Z.pow Z.pow_pos Pos.iter Z.mul Pos.mul Z.pos_sub Z.opp];
    (split; [lia|]); (split; [apply Z.div_lt_upper_bound; lia|]);
    intros Hpos; try lia;
    apply Z.div_le_lower_bound; lia.
Qed.

Lemma select_shift_adequate_witness :
  select_shift 0 (2 ^ 32) 8388636 = 2
  /\ (2 ^ 32 + 8388636) / 2 ^ 2 < 2 ^ 31
  /\ 2 ^ 31 <= (2 ^ 32 + 8388636) / 2 ^ 1.
Proof.
  split; [reflexivity|].
  pose proof (select_shift_adequate (2 ^ 32) 8388636 ltac:(lia) ltac:(lia)) as H.
  cbv zeta in H. change (select_shift 0 (2 ^ 32) 8388636) with 2 in H.
  destruct H as (_ & H1 & H2). split; [exact H1|]. apply H2. lia.
Defined.

(** ** Progress reporting *)

(** X10.  [progress_compress] divides by [totalInput] and by
    [currentInput]: it is undefined exactly when one of them is 0 (so also
    at the very start, with nothing consumed yet).  When it is defined, an
    immediate second call with the same arguments prints nothing and
    leaves the globals alone. *)
Theorem progress_compress_repeat currentInput totalInput currentOutput g :
  (progress_compress currentInput totalInput currentOutput g = None
   <-> totalInput = 0 \/ currentInput = 0)
  /\ forall out g',
       progress_compress currentInput totalInput currentOutput g = Some (out, g') ->
       progress_compress currentInput totalInput currentOutput g' = Some (None, g').
Proof.
  unfold progress_compress.
  destruct (Z.eqb_spec totalInput 0) as [Ht|Ht];
    destruct (Z.eqb_spec currentInput 0) as [Hc|Hc]; cbn [orb];
    (split; [split; [intros _; lia | intros _; reflexivity] | discriminate])
    || idtac.
  split.
  - split; [|lia].
    destruct (negb _ || negb _); discriminate.
  - intros out g'.
    destruct (negb (lastProgress g =? _) || negb (lastRatio g =? _)) eqn:Hg.
    + intros [= <- <-]. cbn [lastProgress lastRatio].
      now rewrite !Z.eqb_refl.
    + intros [= <- <-]. now rewrite Hg.
Qed.

Lemma progress_compress_repeat_witness :
  progress_compress 512 4096 256 progress_start
  = Some (Some (12, 50), {| lastProgress := 12; lastRatio := 50 |})
  /\ progress_compress 512 4096 256 {| lastProgress := 12; lastRatio := 50 |}
     = Some (None, {| lastProgress := 12; lastRatio := 50 |})
  /\ progress_compress 0 4096 0 progress_start = None.
Proof.
  split; [reflexivity|]. split.
  - apply (proj2 (progress_compress_repeat 512 4096 256 progress_start)
             (Some (12, 50))).
    reflexivity.
  - apply (proj1 (progress_compress_repeat 0 4096 0 progress_start)).
    now right.
Defined.

(** X11.  While no more has been consumed than there is in total (and the
    product by 100 fits 64 bits), [progress_decompress] leaves in
    [lastProgress] the exact integer percentage, between 0 and 100, and
    prints it exactly when it differs from the value held before. *)
Theorem progress_decompress_percentage currentInput totalInput g out g' :
  0 <= currentInput <= totalInput -> 0 < totalInput ->
  currentInput * 100 < 2 ^ 64 ->
  progress_decompress currentInput totalInput g = Some (out, g') ->
  lastProgress g' = currentInput * 100 / totalInput
  /\ 0 <= lastProgress g' <= 100
  /\ lastRatio g' = lastRatio g
  /\ (out = None <-> lastProgress g = currentInput * 100 / totalInput).
Proof.
  intros Hc Ht Hfit. unfold progress_decompress.
  destruct (Z.eqb_spec totalInput 0); [lia|].
  assert (Hu : u64 (currentInput * 100) = currentInput * 100)
    by (unfold u64, wrap; apply Z.mod_small; lia).
  rewrite Hu.
  assert (Hp : 0 <= currentInput * 100 / totalInput <= 100).
  { split; [apply Z.div_pos; lia|]. apply Z.div_le_upper_bound; lia. }
  assert (Hu8 : u8 (currentInput * 100 / totalInput)
                = currentInput * 100 / totalInput)
    by (unfold u8, wrap; apply Z.mod_small; lia).
  rewrite Hu8.
  destruct (Z.eqb_spec (lastProgress g) (currentInput * 100 / totalInput))
    as [Heq|Hne]; cbn [negb]; intros [= <- <-]; cbn [lastProgress lastRatio].
  - repeat split; try lia; auto.
  - repeat split; try lia; try discriminate.
Qed.

Lemma progress_decompress_percentage_witness :
  progress_decompress 1024 4096 progress_start
  = Some (Some 25, {| lastProgress := 25; lastRatio := 0 |})
  /\ lastProgress {| lastProgress := 25; lastRatio := 0 |} = 1024 * 100 / 4096.
Proof.
  split; [reflexivity|].
  apply (progress_decompress_percentage 1024 4096 progress_start (Some 25)
           {| lastProgress := 25; lastRatio := 0 |});
    [lia | lia | lia | reflexivity].
Defined.

(** ** The index rewrite *)

Lemma length_index_image table :
  length (index_image table) = (4 * length table)%nat.
Proof.
  unfold index_image. induction table as [|e table IH]; [reflexivity|].
  cbn [map concat]. rewrite length_app, IH. cbn [uint32_image length]. lia.
Qed.

(** X12.  The end of the branch rewrites the index in place.  Once the file
    holds the header and the placeholder index, [finish_index] leaves the
    first 0x18 bytes and everything after the index as the block loop (and
    the final padding) wrote them, puts the image of the completed table in
    between, and does not change the length of the table. *)
Theorem finish_index_in_place shift entries st :
  at_end (outFile st) ->
  (0x18 + 4 * length (blocks st) <= length (o_data (outFile st)))%nat ->
  let st' := finish_index shift entries st in
  let written := o_data (outFile st)
                 ++ padding (tellp (outFile st))
                      (snd (pos_to_index (tellp (outFile st)) shift false)) in
  length (blocks st') = length (blocks st)
  /\ o_data (outFile st')
     = take 0x18 (o_data (outFile st)) ++ index_image (blocks st')
       ++ drop (0x18 + 4 * length (blocks st)) written.
Proof.
  intros Hend Hlen. unfold finish_index.
  destruct (pos_to_index _ _ _) as [entry real]. cbn [snd blocks outFile].
  split; [apply length_insert|].
  rewrite (write_at_end (outFile st)) by assumption.
  unfold write, seekp. cbn [o_data o_pos].
  change (Z.to_nat 24) with 24%nat.
  set (written := o_data (outFile st) ++ padding (tellp (outFile st)) real).
  assert (Hw : (24 + 4 * length (blocks st) <= length written)%nat)
    by (subst written; rewrite length_app; lia).
  replace (24 - length written)%nat with 0%nat by lia.
  cbn [replicate]. rewrite app_nil_r.
  rewrite length_index_image, length_insert.
  subst written. rewrite take_app_le by lia. reflexivity.
Qed.

Lemma finish_index_in_place_witness :
  o_data (outFile (finish_index 0 2
            {| inFile := {| i_path := "a.iso"; i_pos := 4; i_fail := false |};
               outFile := {| o_data := replicate 32 "007"%byte
                                       ++ ["001"; "002"; "003"]%byte;
                             o_pos := 35 |};
               blocks := [32; 0];
               readBuffer := []; writeBuffer := [] |}))
  = replicate 24 "007"%byte
    ++ index_image [32; 35] ++ ["001"; "002"; "003"]%byte.
Proof.
  pose proof (finish_index_in_place 0 2
    {| inFile := {| i_path := "a.iso"; i_pos := 4; i_fail := false |};
       outFile := {| o_data := replicate 32 "007"%byte
                               ++ ["001"; "002"; "003"]%byte;
                     o_pos := 35 |};
       blocks := [32; 0];
       readBuffer := []; writeBuffer := [] |}
    ltac:(reflexivity) ltac:(cbn; lia)) as H.
  cbv zeta in H. destruct H as [_ H]. rewrite H. reflexivity.
Defined.

(** ** The block loop, block by block *)

Lemma round_up_0 offset : round_up offset 0 = offset.
Proof.
  unfold round_up. change (2 ^ 0) with 1.
  rewrite Z.div_1_r. lia.
Qed.

Lemma representable_0 offset : offset < 2 ^ 31 -> representable offset 0.
Proof. intros H. unfold representable. rewrite round_up_0. cbn. lia. Qed.

Lemma padding_none position : padding position position = [].
Proof. unfold padding. now rewrite Z.ltb_irrefl. Qed.

(** Everything a successful iteration establishes, given that the write
    buffer has the size of a block. *)
Lemma encode_block_success lz h w settings shift inputSize cur st st' :
  at_end (outFile st) ->
  0 <= blockSize settings < 2 ^ 31 ->
  length (writeBuffer st) = Z.to_nat (blockSize settings) ->
  encode_block lz h w settings shift inputSize cur st = (0, st') ->
  exists payload raw,
    let start := tellp (outFile st) in
    o_data (outFile st')
    = o_data (outFile st) ++ payload
      ++ padding start (snd (pos_to_index start shift false))
    /\ blocks st' = <[cur := fst (pos_to_index start shift raw)]> (blocks st)
    /\ at_end (outFile st')
    /\ 0 < Z.of_nat (length payload) <= blockSize settings
    /\ length (writeBuffer st') = length (writeBuffer st)
    /\ length (readBuffer st') = length (readBuffer st).
Proof.
  intros Hend Hbs Hwb. unfold encode_block.
  set (left := u64 (inputSize - tellg (inFile st))).
  set (toRead := if left <? blockSize settings then left else blockSize settings).
  assert (HtoRead : 0 <= toRead <= blockSize settings).
  { assert (Hl : 0 <= left < 2 ^ 64)
      by (subst left; unfold u64, wrap; apply Z.mod_pos_bound; lia).
    subst toRead. destruct (Z.ltb_spec left (blockSize settings)); lia. }
  destruct (read _ _ _) as [inFile' got].
  rewrite (u32_small toRead) by lia.
  pose proof (compress_block_bounds lz h (store got (readBuffer st)) toRead
                (writeBuffer st) (u32 (Z.of_nat (length (writeBuffer st))))
                false settings ltac:(lia)) as [Hsize Hlen].
  destruct (compress_block _ _ _ _ _ _ _ _) as [[size wb] raw].
  cbn [fst snd] in Hsize, Hlen.
  assert (Hint : to_int size = size).
  { unfold to_int. rewrite u32_small by lia.
    destruct (Z.ltb_spec size (2 ^ 31)); lia. }
  rewrite Hint.
  destruct (Z.ltb_spec 0 size) as [Hpos|]; [|discriminate].
  destruct (pos_to_index _ _ raw) as [entry real] eqn:Hpos_eq.
  intros [= <-]. cbn [outFile blocks writeBuffer readBuffer].
  exists (take (Z.to_nat size) wb), raw. cbv zeta.
  rewrite Hpos_eq. cbn [fst].
  rewrite <- (pos_to_index_position _ _ raw), Hpos_eq. cbn [snd].
  pose proof (at_end_write _ (take (Z.to_nat size) wb) Hend) as Hend1.
  repeat split.
  - rewrite (write_at_end (write _ _)) by assumption. cbn [o_data].
    rewrite write_at_end by assumption. cbn [o_data].
    now rewrite <- app_assoc.
  - now apply at_end_write.
  - rewrite length_take. lia.
  - rewrite length_take. lia.
  - exact Hlen.
  - apply length_store.
Qed.

(** X13.  The stored length of a block.  With a write buffer of the size of
    a block, every iteration that succeeds appends to the output a payload
    of at least one byte and at most [blockSize] bytes (followed by the
    padding), and keeps the sizes of both buffers. *)
Theorem encode_block_stored_length lz h w settings shift inputSize cur st st' :
  at_end (outFile st) ->
  0 <= blockSize settings < 2 ^ 31 ->
  length (writeBuffer st) = Z.to_nat (blockSize settings) ->
  encode_block lz h w settings shift inputSize cur st = (0, st') ->
  exists payload,
    o_data (outFile st')
    = o_data (outFile st) ++ payload
      ++ padding (tellp (outFile st))
           (snd (pos_to_index (tellp (outFile st)) shift false))
    /\ 0 < Z.of_nat (length payload) <= blockSize settings
    /\ length (writeBuffer st') = length (writeBuffer st)
    /\ length (readBuffer st') = length (readBuffer st).
Proof.
  intros Hend Hbs Hwb Hstep.
  destruct (encode_block_success _ _ _ _ _ _ _ _ _ Hend Hbs Hwb Hstep)
    as (payload & raw & Hout & _ & _ & Hlen & Hw & Hr).
  exists payload. auto.
Qed.

Lemma encode_block_stored_length_witness :
  exists payload,
    o_data (outFile (snd (encode_block example_codec reference_h example_world
                            example_settings 0 12 1 example_state)))
    = replicate 43 "007"%byte ++ payload ++ padding 43 43
    /\ 0 < Z.of_nat (length payload) <= 4
    /\ length (writeBuffer (snd (encode_block example_codec reference_h
                                   example_world example_settings 0 12 1
                                   example_state))) = 4%nat
    /\ length (readBuffer (snd (encode_block example_codec reference_h
                                  example_world example_settings 0 12 1
                                  example_state))) = 4%nat.
Proof.
  apply (encode_block_stored_length example_codec reference_h example_world
           example_settings 0 12 1 example_state
           (snd (encode_block example_codec reference_h example_world
                   example_settings 0 12 1 example_state)));
    [reflexivity | cbn; lia | reflexivity | reflexivity].
Defined.

(** X14.  Without a shift (inputs below the 2 GB threshold) and below
    [2 ^ 31], the index is exact: an iteration writes no padding, the entry
    of the block decodes to the position its payload was written at, and
    the entry that follows decodes to a position that is further by exactly
    the stored length, which is between 1 and [blockSize]. *)
Theorem encode_block_exact_without_shift lz h w settings inputSize cur st st' raw' :
  at_end (outFile st) ->
  0 <= blockSize settings < 2 ^ 31 ->
  length (writeBuffer st) = Z.to_nat (blockSize settings) ->
  encode_block lz h w settings 0 inputSize cur st = (0, st') ->
  tellp (outFile st') < 2 ^ 31 ->
  exists payload entry,
    o_data (outFile st') = o_data (outFile st) ++ payload
    /\ blocks st' = <[cur := entry]> (blocks st)
    /\ fst (index_to_pos entry 0) = tellp (outFile st)
    /\ fst (index_to_pos (fst (pos_to_index (tellp (outFile st')) 0 raw')) 0)
       - fst (index_to_pos entry 0)
       = Z.of_nat (length payload)
    /\ 0 < Z.of_nat (length payload) <= blockSize settings.
Proof.
  intros Hend Hbs Hwb Hstep Hnext.
  destruct (encode_block_success _ _ _ _ _ _ _ _ _ Hend Hbs Hwb Hstep)
    as (payload & raw & Hout & Hblocks & Hend' & Hlen & _ & _).
  cbv zeta in Hout, Hblocks.
  assert (H0 : 0 <= tellp (outFile st)) by (unfold tellp; rewrite Hend; lia).
  assert (H0' : 0 <= tellp (outFile st')) by (unfold tellp; rewrite Hend'; lia).
  assert (Hle : tellp (outFile st) <= tellp (outFile st')).
  { unfold tellp. rewrite Hend, Hend', Hout, !length_app. lia. }
  assert (Hrep : representable (tellp (outFile st)) 0)
    by (apply representable_0; lia).
  assert (Hrep' : representable (tellp (outFile st')) 0)
    by (now apply representable_0).
  rewrite pos_to_index_representable in Hout by (assumption || lia).
  cbn [snd] in Hout. rewrite round_up_0, padding_none, app_nil_r in Hout.
  exists payload, (fst (pos_to_index (tellp (outFile st)) 0 raw)).
  rewrite !index_to_pos_pos_to_index by (assumption || lia). cbn [fst].
  rewrite !round_up_0.
  repeat split; try assumption; try lia.
  unfold tellp. rewrite Hend, Hend', Hout, length_app. lia.
Qed.

Lemma encode_block_exact_without_shift_witness :
  exists payload entry,
    o_data (outFile (snd (encode_block example_codec reference_h example_world
                            example_settings 0 12 1 example_state)))
    = replicate 43 "007"%byte ++ payload
    /\ blocks (snd (encode_block example_codec reference_h example_world
                      example_settings 0 12 1 example_state))
       = <[1%nat := entry]> [20; 0; 0; 0]
    /\ fst (index_to_pos entry 0) = 43
    /\ fst (index_to_pos (fst (pos_to_index 46 0 false)) 0)
       - fst (index_to_pos entry 0)
       = Z.of_nat (length payload)
    /\ 0 < Z.of_nat (length payload) <= 4.
Proof.
  apply (encode_block_exact_without_shift example_codec reference_h
           example_world example_settings 12 1 example_state
           (snd (encode_block example_codec reference_h example_world
                   example_settings 0 12 1 example_state)) false);
    [reflexivity | cbn; lia | reflexivity | reflexivity | reflexivity].
Defined.

(** ** The block loop as a whole *)

Lemma block_loop_code lz h w settings shift inputSize n cur st :
  fst (block_loop lz h w settings shift inputSize n cur st) = 0
  \/ fst (block_loop lz h w settings shift inputSize n cur st) = 1.
Proof.
  revert cur st. induction n as [|n IH]; intros cur st; [now left|].
  cbn [block_loop].
  destruct (encode_block _ _ _ _ _ _ _ _) as [return_code st1] eqn:Hstep.
  destruct (Z.eqb_spec return_code 0) as [->|Hne]; [apply IH|].
  cbn [fst]. right. revert Hstep. unfold encode_block.
  destruct (read _ _ _). destruct (compress_block _ _ _ _ _ _ _ _) as [[? ?] ?].
  destruct (0 <? _); [destruct (pos_to_index _ _ _)|]; now intros [= <- _].
Qed.

(** The loop at shift 0, below [2 ^ 31]: what is kept and what the entries
    decode to. *)
Lemma block_loop_without_shift lz h w settings inputSize n :
  forall cur st st',
  at_end (outFile st) ->
  0 <= blockSize settings < 2 ^ 31 ->
  length (writeBuffer st) = Z.to_nat (blockSize settings) ->
  block_loop lz h w settings 0 inputSize n cur st = (0, st') ->
  tellp (outFile st') < 2 ^ 31 ->
  at_end (outFile st')
  /\ tellp (outFile st) <= tellp (outFile st')
  /\ length (blocks st') = length (blocks st)
  /\ (forall i, (i < cur)%nat -> blocks st' !! i = blocks st !! i)
  /\ (forall i e, (cur <= i)%nat -> (i < cur + n)%nat ->
        blocks st' !! i = Some e ->
        tellp (outFile st) <= fst (index_to_pos e 0) < tellp (outFile st'))
  /\ (forall i j ei ej, (cur <= i)%nat -> (i < j)%nat -> (j < cur + n)%nat ->
        blocks st' !! i = Some ei -> blocks st' !! j = Some ej ->
        fst (index_to_pos ei 0) < fst (index_to_pos ej 0)).
Proof.
  induction n as [|n IH]; intros cur st st' Hend Hbs Hwb Hloop Hlast.
  - cbn in Hloop. injection Hloop as <-.
    repeat split; intros; (lia || reflexivity || assumption).
  - cbn [block_loop] in Hloop.
    destruct (encode_block _ _ _ _ _ _ _ _) as [return_code st1] eqn:Hstep.
    destruct (Z.eqb_spec return_code 0) as [->|Hne];
      [|injection Hloop as -> _; contradiction].
    destruct (encode_block_success _ _ _ _ _ _ _ _ _ Hend Hbs Hwb Hstep)
      as (payload & raw & Hout & Hblocks & Hend1 & Hlen & Hwb1 & _).
    cbv zeta in Hout, Hblocks.
    rewrite <- Hwb1 in Hwb.
    destruct (IH (S cur) st1 st' Hend1 Hbs Hwb Hloop Hlast)
      as (Hend' & Hpos & Hlength & Hframe & Hrange & Hmono).
    assert (H0 : 0 <= tellp (outFile st)) by (unfold tellp; rewrite Hend; lia).
    assert (Hle : tellp (outFile st) <= tellp (outFile st1)).
    { unfold tellp. rewrite Hend, Hend1, Hout, !length_app. lia. }
    assert (Hrep : representable (tellp (outFile st)) 0)
      by (apply representable_0; lia).
    rewrite pos_to_index_representable in Hout by (assumption || lia).
    cbn [snd] in Hout. rewrite round_up_0, padding_none, app_nil_r in Hout.
    assert (Hnext : tellp (outFile st1)
                    = tellp (outFile st) + Z.of_nat (length payload)).
    { unfold tellp. rewrite Hend, Hend1, Hout, length_app. lia. }
    assert (Hentry : forall e, blocks st' !! cur = Some e ->
                               fst (index_to_pos e 0) = tellp (outFile st)).
    { intros e He. rewrite Hframe, Hblocks in He by lia.
      apply list_lookup_insert_Some in He as [(_ & <- & _)|[Hne _]];
        [|contradiction].
      rewrite index_to_pos_pos_to_index by (assumption || lia).
      cbn [fst]. apply round_up_0. }
    split; [assumption|]. split; [lia|].
    split; [rewrite Hlength, Hblocks; apply length_insert|].
    split; [|split].
    + intros i Hi. rewrite Hframe, Hblocks by lia.
      apply list_lookup_insert_ne. lia.
    + intros i e Hlo Hhi He.
      destruct (decide (i = cur)) as [->|Hne].
      * rewrite (Hentry e He). lia.
      * specialize (Hrange i e ltac:(lia) ltac:(lia) He). lia.
    + intros i j ei ej Hlo Hij Hhi Hei Hej.
      destruct (decide (i = cur)) as [->|Hne].
      * rewrite (Hentry ei Hei).
        specialize (Hrange j ej ltac:(lia) ltac:(lia) Hej). lia.
      * apply (Hmono i j); (lia || assumption).
Qed.

(** X15.  Index monotonicity without a shift.  After a loop that succeeded
    at shift 0 and ended below [2 ^ 31], the entries it wrote decode to
    strictly increasing positions, all of them from the position the loop
    started at up to, but not including, the position it ended at (which is
    what the end-of-file entry decodes to); the entries before them are
    untouched. *)
Theorem block_loop_index_increasing lz h w settings inputSize n cur st st' :
  at_end (outFile st) ->
  0 <= blockSize settings < 2 ^ 31 ->
  length (writeBuffer st) = Z.to_nat (blockSize settings) ->
  block_loop lz h w settings 0 inputSize n cur st = (0, st') ->
  tellp (outFile st') < 2 ^ 31 ->
  (forall i j ei ej, (cur <= i)%nat -> (i < j)%nat -> (j < cur + n)%nat ->
     blocks st' !! i = Some ei -> blocks st' !! j = Some ej ->
     fst (index_to_pos ei 0) < fst (index_to_pos ej 0))
  /\ (forall i e, (cur <= i)%nat -> (i < cur + n)%nat ->
        blocks st' !! i = Some e ->
        tellp (outFile st) <= fst (index_to_pos e 0) < tellp (outFile st'))
  /\ (forall i, (i < cur)%nat -> blocks st' !! i = blocks st !! i).
Proof.
  intros Hend Hbs Hwb Hloop Hlast.
  destruct (block_loop_without_shift _ _ _ _ _ _ _ _ _ Hend Hbs Hwb Hloop Hlast)
    as (_ & _ & _ & Hframe & Hrange & Hmono).
  auto.
Qed.

Lemma block_loop_index_increasing_witness :
  blocks (snd (block_loop example_codec reference_h example_world
                 example_settings 0 12 2 1 example_state))
  = [20; 43; 46; 0]
  /\ forall i j ei ej, (1 <= i)%nat -> (i < j)%nat -> (j < 1 + 2)%nat ->
       blocks (snd (block_loop example_codec reference_h example_world
                      example_settings 0 12 2 1 example_state)) !! i = Some ei ->
       blocks (snd (block_loop example_codec reference_h example_world
                      example_settings 0 12 2 1 example_state)) !! j = Some ej ->
       fst (index_to_pos ei 0) < fst (index_to_pos ej 0).
Proof.
  split; [reflexivity|].
  apply (block_loop_index_increasing example_codec reference_h example_world
           example_settings 12 2 1 example_state
           (snd (block_loop example_codec reference_h example_world
                   example_settings 0 12 2 1 example_state)));
    [reflexivity | cbn; lia | reflexivity | reflexivity | reflexivity].
Defined.

(** ** [main] as a whole *)

Lemma exit_cases return_code settings w :
  exit_ return_code settings w = Exit return_code w
  \/ (return_code <> 0 /\ keepOutput settings = false
      /\ exit_ return_code settings w
         = Exit return_code (remove w (outputFile settings))).
Proof.
  unfold exit_. destruct (Z.eqb_spec return_code 0); [now left|].
  destruct (keepOutput settings); [now left|].
  destruct (files w !! outputFile settings); [now right|now left].
Qed.

Lemma remove_cases w path :
  remove w path = w \/ remove w path = set_files w (delete path (files w)).
Proof. unfold remove. destruct (decide _); auto. Qed.


Lemma detect_blockSize settings file_format :
  blockSize (detect settings file_format) = blockSize settings.
Proof.
  unfold detect. destruct (is_ziso file_format); cbn;
    destruct (String.eqb _ _); reflexivity.
Qed.

Lemma detect_given_name settings file_format :
  outputFile settings <> ""%string ->
  outputFile (detect settings file_format) = outputFile settings.
Proof.
  intros Hname. apply String.eqb_neq in Hname. unfold detect.
  destruct (is_ziso file_format); cbn [outputFile set_compress];
    now rewrite Hname.
Qed.

Lemma detect_mode settings file_format :
  is_ziso file_format = false ->
  compress (detect settings file_format) = compress settings.
Proof.
  intros H. unfold detect. rewrite H.
  destruct (String.eqb _ _); reflexivity.
Qed.

Lemma encode_code lz h w settings inFile0 return_code st :
  encode lz h w settings inFile0 = Some (return_code, st) ->
  return_code = 0 \/ return_code = 1.
Proof.
  unfold encode. destruct (encode_init _ _ _ _) as [[[[inputSize n] shift] st0]|];
    [|discriminate].
  pose proof (block_loop_code lz h w settings shift inputSize
                (Z.to_nat (n - 1)) 0 st0) as Hcode.
  destruct (block_loop _ _ _ _ _ _ _ _ _) as [rc st1]. cbn [fst] in Hcode.
  destruct (rc =? 0); intros [= <- _]; auto.
Qed.

(** The case analysis every property of [main] starts with. *)
Ltac main_cases :=
  unfold main;
  destruct (get_options _ _) as [rc settings] eqn:Hopts;
  destruct (negb (rc =? 0)) eqn:Hrc;
  [| destruct (String.eqb (inputFile settings) "") eqn:Hname;
     [| destruct (i_fail (ifstream_open _ _)) eqn:Hfail;
        [| destruct (read _ _ 4) as [inFile1 file_format] eqn:Hread;
           destruct (negb _ && bool_decide _) eqn:Hguard;
           [| destruct (decide (_ ∈ locked _)) as [Hlocked|Hfree];
              [| destruct (compress (detect _ _)) eqn:Hmode;
                 [destruct (encode _ _ _ _ _) as [[rc' st]|] eqn:Henc|]]]]]].

(** X16.  A run that ends returns 0 or 1. *)
Theorem main_return_code lz h args w return_code w' :
  main lz h args w = Exit return_code w' ->
  return_code = 0 \/ return_code = 1.
Proof.
  main_cases;
    try (destruct (exit_cases 1 settings w) as [->|(_ & _ & ->)];
         intros [= <- _]; now right).
  - pose proof (get_options_code args (opt_init h)) as Hcode.
    rewrite Hopts in Hcode. cbn [fst] in Hcode.
    destruct (exit_cases rc settings w) as [->|(_ & _ & ->)];
      now intros [= <- _].
  - match goal with |- exit_ 1 ?s ?v = _ -> _ =>
      destruct (exit_cases 1 s v) as [->|(_ & _ & ->)] end;
      intros [= <- _]; now right.
  - match goal with |- exit_ 1 ?s ?v = _ -> _ =>
      destruct (exit_cases 1 s v) as [->|(_ & _ & ->)] end;
      intros [= <- _]; now right.
  - pose proof (encode_code _ _ _ _ _ _ _ Henc) as Hcode.
    match goal with |- exit_ rc' ?s ?v = _ -> _ =>
      destruct (exit_cases rc' s v) as [->|(_ & _ & ->)] end;
      now intros [= <- _].
  - discriminate.
  - intros [= <- _]. now left.
Qed.

Lemma main_return_code_witness :
  main example_codec reference_h [("i"%char, "game.zso"%string)] container_world
  = Exit 1 container_world
  /\ (1 = 0 \/ 1 = 1).
Proof.
  split; [reflexivity|].
  apply (main_return_code example_codec reference_h
           [("i"%char, "game.zso"%string)] container_world 1 container_world).
  reflexivity.
Defined.

Lemma set_files_insert_twice w path (a b : list byte) :
  set_files (set_files w (<[path := a]> (files w)))
    (<[path := b]> (files (set_files w (<[path := a]> (files w)))))
  = set_files w (<[path := b]> (files w)).
Proof. unfold set_files. cbn. now rewrite insert_insert_eq. Qed.

(** X17.  A run touches one file at most.  Whatever the outcome, the set
    of locked paths is unchanged and so is every file other than the
    output file; when [-o] was given, the output file is the one it
    names. *)
Theorem main_touches_the_output_only lz h args w return_code w' :
  main lz h args w = Exit return_code w' ->
  exists output,
    (outputFile (snd (get_options args (opt_init h))) <> ""%string ->
     output = outputFile (snd (get_options args (opt_init h))))
    /\ locked w' = locked w
    /\ forall path, path <> output -> files w' !! path = files w !! path.
Proof.
  assert (Hrm : forall v path other,
            other <> path ->
            locked (remove v path) = locked v
            /\ files (remove v path) !! other = files v !! other).
  { intros v path other Hne. destruct (remove_cases v path) as [->| ->];
      [now split|]. cbn. split; [reflexivity|]. now apply lookup_delete_ne. }
  main_cases; cbn [snd].
  - intros Hrun. exists (outputFile settings). split; [reflexivity|].
    destruct (exit_cases rc settings w) as [H|(_ & _ & H)];
      rewrite H in Hrun; injection Hrun as _ <-; [now split|].
    split; [unfold remove; now destruct (decide _)|].
    intros path Hne. now apply Hrm.
  - intros Hrun. exists (outputFile settings). split; [reflexivity|].
    destruct (exit_cases 1 settings w) as [H|(_ & _ & H)];
      rewrite H in Hrun; injection Hrun as _ <-; [now split|].
    split; [unfold remove; now destruct (decide _)|].
    intros path Hne. now apply Hrm.
  - intros Hrun. exists (outputFile settings). split; [reflexivity|].
    destruct (exit_cases 1 settings w) as [H|(_ & _ & H)];
      rewrite H in Hrun; injection Hrun as _ <-; [now split|].
    split; [unfold remove; now destruct (decide _)|].
    intros path Hne. now apply Hrm.
  - intros Hrun. exists (outputFile (detect settings file_format)).
    split; [intros Hgiven; now apply detect_given_name|].
    unfold exit_ in Hrun. cbn in Hrun. injection Hrun as _ <-. now split.
  - intros Hrun. exists (outputFile (detect settings file_format)).
    split; [intros Hgiven; now apply detect_given_name|].
    destruct (exit_cases 1 (detect settings file_format) w) as [H|(_ & _ & H)];
      rewrite H in Hrun; injection Hrun as _ <-; [now split|].
    split; [unfold remove; now destruct (decide _)|].
    intros path Hne. now apply Hrm.
  - intros Hrun. exists (outputFile (detect settings file_format)).
    split; [intros Hgiven; now apply detect_given_name|].
    match type of Hrun with exit_ rc' ?s ?v = _ =>
      destruct (exit_cases rc' s v) as [H|(_ & _ & H)] end;
      rewrite H in Hrun; injection Hrun as _ <-.
    + split; [reflexivity|]. intros path Hne. cbn.
      rewrite !lookup_insert_ne by congruence. reflexivity.
    + split; [unfold remove; now destruct (decide _)|].
      intros path Hne.
      match goal with |- files (remove ?v ?p) !! _ = _ =>
        destruct (Hrm v p path Hne) as [_ ->] end.
      cbn. rewrite !lookup_insert_ne by congruence. reflexivity.
  - discriminate.
  - intros Hrun. exists (outputFile (detect settings file_format)).
    split; [intros Hgiven; now apply detect_given_name|].
    unfold exit_ in Hrun. cbn in Hrun. injection Hrun as _ <-.
    split; [reflexivity|]. intros path Hne. cbn.
    now rewrite lookup_insert_ne by congruence.
Qed.

Lemma main_touches_the_output_only_witness :
  exists output,
    (outputFile (snd (get_options [("i"%char, "game.zso"%string);
                                   ("f"%char, ""%string)]
                        (opt_init reference_h))) <> ""%string ->
     output = outputFile (snd (get_options [("i"%char, "game.zso"%string);
                                            ("f"%char, ""%string)]
                                 (opt_init reference_h))))
    /\ locked (set_files container_world
                 (<["game.iso"%string := []]> (files container_world)))
       = locked container_world
    /\ forall path, path <> output ->
         files (set_files container_world
                  (<["game.iso"%string := []]> (files container_world))) !! path
         = files container_world !! path.
Proof.
  apply (main_touches_the_output_only example_codec reference_h
           [("i"%char, "game.zso"%string); ("f"%char, ""%string)]
           container_world 0).
  vm_compute. reflexivity.
Defined.



(** X19.  What a successful run needs and does.  A run returns 0 only if
    the options were parsed without error and name an input, the input
    file exists, the output file either did not exist or [-f] was given,
    and the output could be opened; and then the file system differs from
    the initial one in the output file alone. *)
Theorem main_success lz h args w w' :
  main lz h args w = Exit 0 w' ->
  exists settings data written,
    get_options args (opt_init h) = (0, settings)
    /\ inputFile settings <> ""%string
    /\ files w !! inputFile settings = Some data
    /\ (overwrite settings = true
        \/ files w !! outputFile (detect settings (take 4 data)) = None)
    /\ (outputFile (detect settings (take 4 data)) ∉ locked w)
    /\ w' = set_files w
              (<[outputFile (detect settings (take 4 data)) := written]> (files w)).
Proof.
  assert (Hexit : forall rc settings v u,
            rc <> 0 -> exit_ rc settings v = Exit 0 u -> False).
  { intros rc settings v u Hrc Hrun.
    destruct (exit_cases rc settings v) as [H|(_ & _ & H)];
      rewrite H in Hrun; injection Hrun as ? _; congruence. }
  main_cases; intros Hrun;
    try (exfalso; eapply (Hexit 1); [discriminate|eassumption]).
  - exfalso. eapply (Hexit rc); [|eassumption].
    intros ->. discriminate Hrc.
  - destruct (Z.eqb_spec rc 0) as [->|]; [|discriminate Hrc].
    apply String.eqb_neq in Hname.
    destruct (files w !! inputFile settings) as [data|] eqn:Hin;
      [|unfold ifstream_open in Hfail; cbn in Hfail; rewrite Hin in Hfail;
        discriminate Hfail].
    destruct (read_tag w _ _ Hin) as [_ Htag]. rewrite Hread in Htag.
    cbn [snd] in Htag. subst file_format.
    destruct (Z.eqb_spec rc' 0) as [->|Hne];
      [|exfalso; eapply (Hexit rc'); eassumption].
    unfold exit_ in Hrun. cbn [Z.eqb] in Hrun. injection Hrun as <-.
    exists settings, data, (o_data (outFile st)).
    repeat split; try assumption.
    + rewrite detect_overwrite in Hguard.
      destruct (overwrite settings); [now left|right].
      cbn [negb andb] in Hguard. apply bool_decide_eq_false in Hguard.
      destruct (files w !! _); [|reflexivity].
      exfalso. apply Hguard. eauto.
    + apply set_files_insert_twice.
  - discriminate.
  - destruct (Z.eqb_spec rc 0) as [->|]; [|discriminate Hrc].
    apply String.eqb_neq in Hname.
    destruct (files w !! inputFile settings) as [data|] eqn:Hin;
      [|unfold ifstream_open in Hfail; cbn in Hfail; rewrite Hin in Hfail;
        discriminate Hfail].
    destruct (read_tag w _ _ Hin) as [_ Htag]. rewrite Hread in Htag.
    cbn [snd] in Htag. subst file_format.
    unfold exit_ in Hrun. cbn [Z.eqb] in Hrun. injection Hrun as <-.
    exists settings, data, [].
    repeat split; try assumption.
    rewrite detect_overwrite in Hguard.
    destruct (overwrite settings); [now left|right].
    cbn [negb andb] in Hguard. apply bool_decide_eq_false in Hguard.
    destruct (files w !! _); [|reflexivity].
    exfalso. apply Hguard. eauto.
Qed.

Lemma main_success_witness :
  exists settings data written,
    get_options [("i"%char, "game.zso"%string); ("f"%char, ""%string)]
      (opt_init reference_h) = (0, settings)
    /\ inputFile settings <> ""%string
    /\ files container_world !! inputFile settings = Some data
    /\ (overwrite settings = true
        \/ files container_world !! outputFile (detect settings (take 4 data))
           = None)
    /\ (outputFile (detect settings (take 4 data)) ∉ locked container_world)
    /\ set_files container_world
         (<["game.iso"%string := []]> (files container_world))
       = set_files container_world
           (<[outputFile (detect settings (take 4 data)) := written]>
              (files container_world)).
Proof.
  apply (main_success example_codec reference_h
           [("i"%char, "game.zso"%string); ("f"%char, ""%string)]
           container_world).
  vm_compute. reflexivity.
Defined.

(** ** Inputs shorter than the format tag *)

Lemma blocksNumber_of_unknown_size_check :
  forallb (fun n => match blocksNumber (2 ^ 64 - 1) (Z.of_nat n) with
                    | None => true
                    | Some _ => false
                    end) (seq 0 2049) = true.
Proof. vm_compute. reflexivity. Qed.

Lemma blocksNumber_of_unknown_size size :
  0 <= size <= 2048 -> blocksNumber (2 ^ 64 - 1) size = None.
Proof.
  intros Hsize.
  pose proof blocksNumber_of_unknown_size_check as Hcheck.
  rewrite forallb_forall in Hcheck.
  specialize (Hcheck (Z.to_nat size)).
  rewrite Z2Nat.id in Hcheck by lia.
  destruct (blocksNumber (2 ^ 64 - 1) size); [|reflexivity].
  discriminate Hcheck. apply in_seq. lia.
Qed.

Lemma is_ziso_short data : (length data < 4)%nat -> is_ziso data = false.
Proof.
  destruct data as [|a [|b [|c [|d rest]]]]; cbn [length]; intros Hlen;
    try lia; unfold is_ziso; cbn [app replicate];
    rewrite ?andb_false_r; reflexivity.
Qed.

(** X20.  An input shorter than the four bytes of the tag (the empty file
    included) cannot be compressed.  The short read of the tag leaves the
    stream failed, so that [tellg] yields -1 and [inputSize] becomes
    [2 ^ 64 - 1]; for the default block size and every block size [-b] can
    leave, the block count then exceeds [uint32_t] and its conversion is
    undefined. *)
Theorem main_short_input_undefined lz h args w settings data :
  get_options args (opt_init h) = (0, settings) ->
  inputFile settings <> ""%string ->
  files w !! inputFile settings = Some data ->
  (length data < 4)%nat ->
  compress settings = true ->
  0 <= blockSize settings <= 2048 ->
  overwrite settings = true
  \/ files w !! outputFile (detect settings data) = None ->
  outputFile (detect settings data) ∉ locked w ->
  main lz h args w = Undefined.
Proof.
  intros Hopts Hname Hin Hlen Hmode Hbs Hmay Hfree.
  unfold main. rewrite Hopts. cbn [negb Z.eqb].
  apply String.eqb_neq in Hname. rewrite Hname.
  assert (Hread : read w (ifstream_open w (inputFile settings)) 4
                  = ({| i_path := inputFile settings;
                        i_pos := Z.of_nat (length data); i_fail := true |},
                     data)).
  { unfold read, ifstream_open, content. cbn. rewrite Hin. cbn.
    rewrite drop_0. destruct (Z.leb_spec 4 (Z.of_nat (length data))); [lia|].
    reflexivity. }
  assert (Hopen : i_fail (ifstream_open w (inputFile settings)) = false)
    by (unfold ifstream_open; cbn; now rewrite Hin).
  rewrite Hopen, Hread.
  assert (Hguard : negb (overwrite (detect settings data))
                   && bool_decide (is_Some (files w !! outputFile (detect settings data)))
                   = false).
  { rewrite detect_overwrite. destruct Hmay as [->| ->]; [reflexivity|].
    rewrite bool_decide_eq_false_2; [apply andb_false_r|].
    intros [? ?]; discriminate. }
  rewrite Hguard, decide_False by assumption.
  rewrite detect_mode, Hmode by (now apply is_ziso_short).
  unfold encode, encode_init, seekg_end, seekg_beg, tellg. cbn [i_fail].
  rewrite detect_blockSize.
  change (u64 (-1)) with (2 ^ 64 - 1).
  now rewrite blocksNumber_of_unknown_size.
Qed.

Lemma main_short_input_undefined_witness :
  main example_codec reference_h [("i"%char, "tiny.iso"%string)]
    {| files := {[ "tiny.iso"%string := ["a"; "b"; "c"]%byte ]}; locked := ∅ |}
  = Undefined.
Proof.
  apply (main_short_input_undefined example_codec reference_h
           [("i"%char, "tiny.iso"%string)]
           {| files := {[ "tiny.iso"%string := ["a"; "b"; "c"]%byte ]};
              locked := ∅ |}
           (set_inputFile reference_opt "tiny.iso") ["a"; "b"; "c"]%byte);
    [reflexivity | discriminate | reflexivity | cbn; lia | reflexivity
     | cbn; lia | right; reflexivity | cbn; set_solver].
Defined.

(** ** The finished container, for inputs that need no shift *)

(** The conversion of a non-negative integer, and the quotient of two such
    values, are not negative. *)
Lemma binary_round_aux_sign sx mx ex lx :
  match binary_round_aux 24 128 sx mx ex lx with
  | S754_zero s | S754_infinity s | S754_finite s _ _ => s = sx
  | S754_nan => True
  end.
Proof.
  unfold binary_round_aux.
  destruct (shr_fexp _ _ _ _ _) as [mrs' e'].
  destruct (shr_fexp _ _ _ _ _) as [mrs'' e''].
  destruct (shr_m mrs''); [reflexivity| |exact I].
  destruct (Z.leb _ _); reflexivity.
Qed.

Lemma float_of_Z_not_negative z : 0 <= z -> not_negative (float_of_Z z).
Proof.
  intros Hz. unfold float_of_Z, binary_normalize.
  destruct z as [|m|m]; [reflexivity| |lia].
  unfold binary_round. destruct (shl_align _ _ _) as [mz ez].
  pose proof (binary_round_aux_sign false (Z.pos mz) ez loc_Exact) as H.
  unfold not_negative. now destruct (binary_round_aux _ _ _ _ _ _).
Qed.

Lemma float_div_not_negative x y :
  not_negative x -> not_negative y -> not_negative (float_div x y).
Proof.
  unfold float_div, SFdiv.
  destruct x as [sx|sx| |sx mx ex], y as [sy|sy| |sy my ey]; cbn;
    try (intros -> ->; reflexivity); try (intros; exact I).
  intros -> ->.
  destruct (SFdiv_core_binary _ _ _ _ _ _) as [[mz ez] lz].
  pose proof (binary_round_aux_sign (xorb false false) mz ez lz) as H.
  now destruct (binary_round_aux _ _ _ _ _ _).
Qed.

(** The table always has room for the end-of-file entry. *)
Lemma blocksNumber_range inputSize size entries :
  0 <= inputSize -> 0 <= size ->
  blocksNumber inputSize size = Some entries -> 1 <= entries < 2 ^ 32.
Proof.
  intros Hi Hs. unfold blocksNumber.
  pose proof (float_div_not_negative _ _ (float_of_Z_not_negative _ Hi)
                (float_of_Z_not_negative _ Hs)) as Hsign.
  destruct (float_div _ _) as [s|s| |s m e]; cbn [ceil]; try discriminate.
  - cbn. intros [= <-]. lia.
  - cbn in Hsign. subst s.
    assert (Hc : 0 <= (if 0 <=? e then Z.pos m * 2 ^ e
                       else - ((- Z.pos m) / 2 ^ (- e)))).
    { destruct (Z.leb_spec 0 e) as [He|He].
      - pose proof (pow2_pos e He). lia.
      - pose proof (pow2_pos (- e) ltac:(lia)) as HP.
        assert ((- Z.pos m) / 2 ^ (- e) < 0)
          by (apply Z.div_lt_upper_bound; lia).
        lia. }
    destruct (_ && _) eqn:Hfit; [|discriminate].
    intros [= <-]. apply andb_true_iff in Hfit as [_ Hlt].
    apply Z.ltb_lt in Hlt. lia.
Qed.

Lemma index_image_placeholder n :
  index_image (replicate n 0) = replicate (4 * n) x00.
Proof.
  unfold index_image. induction n as [|n IH]; [reflexivity|].
  cbn [replicate map concat]. rewrite IH.
  replace (4 * S n)%nat with (4 + 4 * n)%nat by lia. reflexivity.
Qed.

(** Whatever happens in it, the loop only appends to the output. *)
Lemma block_loop_appends lz h w settings shift inputSize n :
  forall cur st,
  at_end (outFile st) ->
  exists tail,
    o_data (outFile (snd (block_loop lz h w settings shift inputSize n cur st)))
    = o_data (outFile st) ++ tail.
Proof.
  induction n as [|n IH]; intros cur st Hend;
    [exists []; cbn; now rewrite app_nil_r|].
  cbn [block_loop].
  pose proof (encode_block_at_end lz h w settings shift inputSize cur st Hend)
    as Hend1.
  assert (Hstep : exists tail,
            o_data (outFile (snd (encode_block lz h w settings shift inputSize
                                    cur st)))
            = o_data (outFile st) ++ tail).
  { unfold encode_block.
    destruct (read _ _ _) as [inFile' got].
    destruct (compress_block _ _ _ _ _ _ _ _) as [[size wb] raw].
    destruct (0 <? to_int size); [|exists []; cbn; now rewrite app_nil_r].
    destruct (pos_to_index _ _ raw) as [entry real]. cbn [snd outFile].
    rewrite (write_at_end (write _ _)) by auto. cbn [o_data].
    rewrite write_at_end by assumption. cbn [o_data].
    rewrite <- app_assoc. eauto. }
  destruct (encode_block _ _ _ _ _ _ _ _) as [return_code st1].
  cbn [snd] in Hend1, Hstep. destruct Hstep as [tail1 Htail1].
  destruct (return_code =? 0); [|cbn [snd]; eauto].
  destruct (IH (S cur) st1 Hend1) as [tail Htail].
  rewrite Htail, Htail1, <- app_assoc. eauto.
Qed.

(** What [encode_init] sets up. *)
Lemma encode_init_state h w settings inFile0 inputSize entries shift st0 :
  0 <= blockSize settings ->
  encode_init h w settings inFile0 = Some (inputSize, entries, shift, st0) ->
  1 <= entries < 2 ^ 32
  /\ at_end (outFile st0)
  /\ o_data (outFile st0)
     = zheader_image h inputSize (blockSize settings) shift
       ++ replicate (4 * Z.to_nat entries) x00
  /\ blocks st0 = replicate (Z.to_nat entries) 0
  /\ length (writeBuffer st0) = Z.to_nat (blockSize settings).
Proof.
  intros Hbs Hinit.
  pose proof (encode_init_at_end _ _ _ _ _ _ _ _ Hinit) as Hend.
  revert Hinit. unfold encode_init.
  destruct (blocksNumber _ _) as [n|] eqn:Hn; [|discriminate].
  intros [= <- <- <- <-]. cbn [outFile blocks writeBuffer].
  split.
  { refine (blocksNumber_range _ _ _ _ Hbs Hn).
    unfold u64, wrap. apply Z.mod_pos_bound. lia. }
  split; [exact Hend|].
  split; [|split; [reflexivity|apply length_replicate]].
  rewrite index_image_placeholder.
  rewrite (write_at_end (write _ _)) by (apply at_end_write; reflexivity).
  cbn [o_data]. rewrite write_at_end by reflexivity. reflexivity.
Qed.

(** X21.  The finished container of an input that needs no shift.  When
    the header is 0x18 bytes long, the shift is 0 and the output stays
    below [2 ^ 31] bytes, a successful compression leaves a file that
    starts with the header and the image of the final index table; the
    table has [blocksNumber] entries; the entries decode to strictly
    increasing offsets, none before the end of the table and none beyond
    the end of the file; and the last entry decodes to the length of the
    file, with the flag clear. *)
Theorem encode_container_without_shift
    lz h w settings inFile0 inputSize entries st0 st :
  0 <= blockSize settings < 2 ^ 31 ->
  (forall a b c, length (zheader_image h a b c) = 24%nat) ->
  encode_init h w settings inFile0 = Some (inputSize, entries, 0, st0) ->
  encode lz h w settings inFile0 = Some (0, st) ->
  Z.of_nat (length (o_data (outFile st))) < 2 ^ 31 ->
  length (blocks st) = Z.to_nat entries
  /\ (exists region,
        o_data (outFile st)
        = zheader_image h inputSize (blockSize settings) 0
          ++ index_image (blocks st) ++ region)
  /\ (forall i j ei ej, (i < j)%nat ->
        blocks st !! i = Some ei -> blocks st !! j = Some ej ->
        fst (index_to_pos ei 0) < fst (index_to_pos ej 0))
  /\ (forall i e, blocks st !! i = Some e ->
        0x18 + 4 * entries <= fst (index_to_pos e 0)
        <= Z.of_nat (length (o_data (outFile st))))
  /\ (exists e, blocks st !! Z.to_nat (entries - 1) = Some e
                /\ index_to_pos e 0
                   = (Z.of_nat (length (o_data (outFile st))), false)).
Proof.
  intros Hbs Hheader Hinit Hrun Hsmall.
  destruct (encode_init_state h w settings inFile0 inputSize entries 0 st0
              (proj1 Hbs) Hinit)
    as (Hn & Hend0 & Hdata0 & Hblocks0 & Hwb0).
  unfold encode in Hrun. rewrite Hinit in Hrun.
  pose proof (block_loop_appends lz h w settings 0 inputSize
                (Z.to_nat (entries - 1)) 0 st0 Hend0) as [tail Htail].
  pose proof (block_loop_at_end lz h w settings 0 inputSize
                (Z.to_nat (entries - 1)) 0 st0 Hend0) as Hend1.
  destruct (block_loop _ _ _ _ _ _ _ _ _) as [rc st1] eqn:Hloop.
  cbn [snd] in Htail, Hend1.
  destruct (Z.eqb_spec rc 0) as [->|Hrc]; [|injection Hrun as ? _; lia].
  injection Hrun as <-.
  assert (Hlen0 : length (o_data (outFile st0)) = (24 + 4 * Z.to_nat entries)%nat)
    by (rewrite Hdata0, length_app, Hheader, length_replicate; reflexivity).
  (* the final file is as long as what the loop and the padding wrote *)
  unfold finish_index in Hsmall |- *.
  destruct (pos_to_index (tellp (outFile st1)) 0 false) as [entry real] eqn:Hq.
  cbn [blocks outFile] in Hsmall |- *.
  rewrite (write_at_end (outFile st1)) in Hsmall |- * by assumption.
  set (written := o_data (outFile st1) ++ padding (tellp (outFile st1)) real)
    in *.
  assert (Hw : (24 + 4 * Z.to_nat entries <= length written)%nat)
    by (subst written; rewrite Htail, !length_app; lia).
  assert (Hlast_len : length (blocks st1) = Z.to_nat entries).
  { clear - Hblocks0 Hloop.
    assert (forall n cur st st' rc,
              block_loop lz h w settings 0 inputSize n cur st = (rc, st') ->
              length (blocks st') = length (blocks st)) as Hgen.
    { induction n as [|n IH]; intros cur st st' rc; cbn [block_loop].
      - now intros [= _ <-].
      - destruct (encode_block _ _ _ _ _ _ _ _) as [rc1 st2] eqn:Hstep.
        assert (length (blocks st2) = length (blocks st)) as Hl.
        { revert Hstep. unfold encode_block.
          destruct (read _ _ _). destruct (compress_block _ _ _ _ _ _ _ _) as [[? ?] ?].
          destruct (0 <? _); [destruct (pos_to_index _ _ _)|];
            intros [= _ <-]; cbn [blocks]; [apply length_insert|reflexivity]. }
        destruct (rc1 =? 0).
        + intros Hrest. rewrite (IH _ _ _ _ Hrest). exact Hl.
        + now intros [= _ <-]. }
    rewrite (Hgen _ _ _ _ _ Hloop), Hblocks0. apply length_replicate. }
  assert (Himage : length (index_image
                             (<[Z.to_nat (entries - 1) := entry]> (blocks st1)))
                   = (4 * Z.to_nat entries)%nat)
    by (rewrite length_index_image, length_insert, Hlast_len; reflexivity).
  assert (Hfinal : o_data (write (seekp {| o_data := written;
                                           o_pos := o_pos (outFile st1)
                                                    + Z.of_nat (length (padding (tellp (outFile st1)) real)) |}
                                        24)
                             (index_image (<[Z.to_nat (entries - 1) := entry]>
                                             (blocks st1))))
                   = take 24 written
                     ++ index_image (<[Z.to_nat (entries - 1) := entry]> (blocks st1))
                     ++ drop (24 + 4 * Z.to_nat entries) written).
  { unfold write, seekp. cbn [o_data o_pos].
    change (Z.to_nat 24) with 24%nat.
    replace (24 - length written)%nat with 0%nat by lia.
    cbn [replicate]. now rewrite app_nil_r, Himage. }
  rewrite Hfinal in Hsmall |- *.
  assert (Hsame : length (take 24 written
                          ++ index_image (<[Z.to_nat (entries - 1) := entry]>
                                            (blocks st1))
                          ++ drop (24 + 4 * Z.to_nat entries) written)
                  = length written).
  { rewrite !length_app, length_take, Himage, length_drop. lia. }
  rewrite Hsame in Hsmall |- *.
  (* hence the loop ended below 2^31, and nothing was padded *)
  assert (Hpos1 : tellp (outFile st1) = Z.of_nat (length (o_data (outFile st1))))
    by exact Hend1.
  assert (Hbelow : tellp (outFile st1) < 2 ^ 31).
  { rewrite Hpos1. subst written. rewrite length_app in Hsmall. lia. }
  assert (Hrep : representable (tellp (outFile st1)) 0)
    by (now apply representable_0).
  rewrite pos_to_index_representable in Hq by (assumption || lia).
  rewrite round_up_0 in Hq. injection Hq as <- <-.
  assert (Hwritten : written = o_data (outFile st1))
    by (subst written; now rewrite padding_none, app_nil_r).
  rewrite Hwritten in *. clear Hwritten written.
  destruct (block_loop_without_shift lz h w settings inputSize
              (Z.to_nat (entries - 1)) 0%nat st0 st1 Hend0
              Hbs Hwb0 Hloop Hbelow)
    as (_ & Hle & _ & _ & Hrange & Hmono).
  assert (Hstart : tellp (outFile st0) = 0x18 + 4 * entries)
    by (unfold tellp; rewrite Hend0, Hlen0; lia).
  set (last := Z.lor (tellp (outFile st1) / 2 ^ 0) (Z.shiftl (Z.b2z false) 31)).
  assert (Hdecode : index_to_pos last 0 = (tellp (outFile st1), false)).
  { subst last.
    rewrite <- (round_up_0 (tellp (outFile st1))) at 1.
    change (Z.lor (round_up (tellp (outFile st1)) 0 / 2 ^ 0)
              (Z.shiftl (Z.b2z false) 31))
      with (fst (Z.lor (round_up (tellp (outFile st1)) 0 / 2 ^ 0)
                   (Z.shiftl (Z.b2z false) 31),
                 round_up (tellp (outFile st1)) 0)).
    rewrite <- pos_to_index_representable by (assumption || lia).
    rewrite index_to_pos_pos_to_index by (assumption || lia).
    now rewrite round_up_0. }
  assert (Hlookup : forall i e,
            <[Z.to_nat (entries - 1) := last]> (blocks st1) !! i = Some e ->
            (i = Z.to_nat (entries - 1) /\ e = last)
            \/ ((i < Z.to_nat (entries - 1))%nat /\ blocks st1 !! i = Some e)).
  { intros i e He.
    apply list_lookup_insert_Some in He as [(<- & <- & _)|[Hne He]];
      [now left|right].
    split; [|exact He]. apply lookup_lt_Some in He. lia. }
  split; [rewrite length_insert; exact Hlast_len|].
  split.
  { exists (drop (24 + 4 * Z.to_nat entries) (o_data (outFile st1))).
    assert (Hhead : take 24 (o_data (outFile st1))
                    = zheader_image h inputSize (blockSize settings) 0).
    { rewrite Htail, take_app_le by lia.
      rewrite Hdata0, take_app_le by (rewrite Hheader; lia).
      apply take_ge. rewrite Hheader. lia. }
    now rewrite Hhead. }
  split; [|split].
  - intros i j ei ej Hij Hei Hej.
    apply Hlookup in Hei as [[-> ->]|[Hi Hei]];
      apply Hlookup in Hej as [[-> ->]|[Hj Hej]]; try lia.
    + rewrite Hdecode. cbn [fst].
      specialize (Hrange i ei ltac:(lia) ltac:(lia) Hei). lia.
    + apply (Hmono i j); (lia || assumption).
  - intros i e He. rewrite <- Hpos1.
    apply Hlookup in He as [[-> ->]|[Hi He]].
    + rewrite Hdecode. cbn [fst]. lia.
    + specialize (Hrange i e ltac:(lia) ltac:(lia) He). lia.
  - exists last. split; [|now rewrite Hdecode, Hpos1].
    apply list_lookup_insert_eq. lia.
Qed.

(** Twelve bytes in 4-byte blocks, three bytes of payload per block: four
    entries, the last of which decodes to the length of the file. *)
Lemma encode_container_without_shift_witness :
  exists st,
    encode example_codec reference_h example_world example_settings
      {| i_path := "a.iso"; i_pos := 4; i_fail := false |} = Some (0, st)
    /\ length (blocks st) = 4%nat
    /\ exists e, blocks st !! 3%nat = Some e
                 /\ index_to_pos e 0
                    = (Z.of_nat (length (o_data (outFile st))), false).
Proof.
  eexists. split; [vm_compute; reflexivity|].
  edestruct (encode_container_without_shift example_codec reference_h
               example_world example_settings
               {| i_path := "a.iso"; i_pos := 4; i_fail := false |})
    as (Hlen & _ & _ & _ & Hlast);
    [cbn; lia | intros; reflexivity | vm_compute; reflexivity
     | vm_compute; reflexivity | vm_compute; reflexivity |].
  split; [exact Hlen | exact Hlast].
Defined.

(** ** The overwrite guard *)

Lemma get_options_overwrite args :
  forall options,
  overwrite options = false ->
  (forall optarg, ("f"%char, optarg) ∉ args) ->
  overwrite (snd (get_options args options)) = false.
Proof.
  induction args as [|[ch optarg] rest IH]; intros options Ho Hf; [exact Ho|].
  assert (Hrest : forall x, ("f"%char, x) ∉ rest)
    by (intros x Hin; apply (Hf x); now right).
  assert (Hch : ch <> "f"%char)
    by (intros ->; apply (Hf optarg); now left).
  cbn [get_options].
  destruct ch as [[] [] [] [] [] [] [] []];
    try (apply IH; assumption); try exact Ho; try contradiction;
    destruct (stoi optarg); try exact Ho;
    destruct (_ || _); try exact Ho; apply IH; assumption.
Qed.

(** X22.  Without [-f] an existing output file is never replaced.  When
    overwriting is off by default and no [-f] is among the options, a run
    that gets as far as opening its input and finds a file under the output
    name returns 1 and leaves the file system exactly as it was. *)
Theorem main_keeps_existing_output lz h args w settings data :
  overwrite (opt_init h) = false ->
  (forall optarg, ("f"%char, optarg) ∉ args) ->
  get_options args (opt_init h) = (0, settings) ->
  inputFile settings <> ""%string ->
  files w !! inputFile settings = Some data ->
  is_Some (files w !! outputFile (detect settings (take 4 data))) ->
  main lz h args w = Exit 1 w.
Proof.
  intros Hdefault Hf Hopts Hname Hin Hout.
  pose proof (get_options_overwrite args (opt_init h) Hdefault Hf) as Hover.
  rewrite Hopts in Hover. cbn [snd] in Hover.
  exact (main_refuses_existing_output lz h args w settings data
           Hopts Hname Hin Hover Hout).
Qed.

Lemma main_keeps_existing_output_witness :
  main example_codec reference_h
    [("i"%char, "game.zso"%string); ("k"%char, ""%string)] container_world
  = Exit 1 container_world.
Proof.
  apply (main_keeps_existing_output example_codec reference_h
           [("i"%char, "game.zso"%string); ("k"%char, ""%string)]
           container_world
           (set_keepOutput (set_inputFile reference_opt "game.zso") true)
           ["Z"; "I"; "S"; "O"; x00; x00]%byte).
  - reflexivity.
  - intros optarg Hin. repeat (apply elem_of_cons in Hin as [Hin|Hin];
                               [discriminate Hin|]).
    now apply elem_of_nil in Hin.
  - reflexivity.
  - discriminate.
  - reflexivity.
  - eexists. reflexivity.
Defined.
